(** * Temporal property-graph versioning queries: a Rocq model

    The repository keeps its versioning engine as Cypher scripts:
    - [src/unnamed/part_001]  the update query (branch a new Current version),
    - [src/compare.sh] l.71-93  the LOAD CSV / MERGE ingest query,
    - [src/temp.cy]            the chain difference and the property diff,
    - [src/search_clean.cy]    the windowed deduplication of a search log,
    - [src/ahh.cy]             the batched bulk delete.

    Each script is embedded clause by clause: a clause maps the current graph
    and the table of rows to a new graph and a new table.  Cypher's [null] is
    [None] and its three-valued logic is written out.  Cypher integers are
    64-bit and its arithmetic raises on overflow instead of wrapping; the
    model computes in [Z], so it gives the queries' results whenever no
    difference of two stored numbers leaves the 64-bit range (the numbers
    here are timestamps in milliseconds and small property values). *)

From stdpp Require Import gmap strings list fin_maps sorting.
From Stdlib Require Import ZArith Ascii.

Local Open Scope nat_scope.

(** ** Cypher values and three-valued logic *)

Module Cypher.

(** Property values stored on nodes and relationships. *)
Inductive value :=
| VInt (z : Z)
| VStr (s : string).

#[global] Instance value_eq_dec : EqDecision value.
Proof. solve_decision. Defined.

(** A truth value: [Some true], [Some false] or [None] for [null]. *)
Definition tv := option bool.

Definition tv_not (a : tv) : tv := negb <$> a.

Definition tv_and (a b : tv) : tv :=
  match a, b with
  | Some false, _ | _, Some false => Some false
  | Some true, Some true => Some true
  | _, _ => None
  end.

Definition tv_or (a b : tv) : tv :=
  match a, b with
  | Some true, _ | _, Some true => Some true
  | Some false, Some false => Some false
  | _, _ => None
  end.

(** [any(x IN xs WHERE p)]: true when some [p] is true, else null when some
    [p] is null, else false. *)
Definition tv_any (ps : list tv) : tv :=
  if bool_decide (Some true ∈ ps) then Some true
  else if bool_decide (None ∈ ps) then None
  else Some false.

(** A [WHERE] keeps a row only when its predicate is true. *)
Definition holds (a : tv) : bool :=
  match a with Some true => true | _ => false end.

(** [a = b] and [a <> b]: null when either side is null. *)
Definition eq3 {A} `{EqDecision A} (a b : option A) : tv :=
  match a, b with
  | Some x, Some y => Some (bool_decide (x = y))
  | _, _ => None
  end.

Definition neq3 {A} `{EqDecision A} (a b : option A) : tv := tv_not (eq3 a b).

(** [range(0, n - 1)] over list positions. *)
Definition range0 (n : nat) : list nat := seq 0 n.

End Cypher.

Import Cypher.

(** ** Window Deduplicator: [src/search_clean.cy] *)

Module WindowDedup.

(** An entity carrying the multi-valued attribute: the parallel lists
    [n.search] and [n.timestamp]. *)
Record entity := Entity {
  labels : gset string;
  search : list string;
  timestamp : list Z
}.

(** [s STARTS WITH t]. *)
Fixpoint starts_with (s t : string) {struct t} : bool :=
  match t, s with
  | EmptyString, _ => true
  | String b t', String a s' => bool_decide (a = b) && starts_with s' t'
  | String _ _, EmptyString => false
  end.

(** [s CONTAINS t]: [t] occurs in [s] at some position. *)
Fixpoint CONTAINS (s t : string) : bool :=
  starts_with s t ||
  match s with
  | EmptyString => false
  | String _ s' => CONTAINS s' t
  end.

Definition contains3 (s t : option string) : tv :=
  match s, t with
  | Some s, Some t => Some (CONTAINS s t)
  | _, _ => None
  end.

(** [abs(tj - ti) <= 60000], null when a timestamp is missing. *)
Definition within3 (tj ti : option Z) : tv :=
  match tj, ti with
  | Some a, Some b => Some (bool_decide (Z.abs (a - b) ≤ 60000)%Z)
  | _, _ => None
  end.

(** The [WHERE any(j IN range(0, size(n.search) - 1) WHERE ...)] filter on
    the row [(n, i, searchText, searchTime)]. *)
Definition merge_candidate (n : entity) (i : nat) : bool :=
  let searchText := search n !! i in
  let searchTime := timestamp n !! i in
  holds (tv_any
    ((λ j, tv_and (tv_and (Some (bool_decide (j ≠ i)))
                          (contains3 (search n !! j) searchText))
                  (within3 (timestamp n !! j) searchTime))
     <$> range0 (length (search n)))).

(** [UNWIND range(...) AS i ... WHERE ... WITH n, collect(i)]. *)
Definition indexesToMerge (n : entity) : list nat :=
  filter (λ i, merge_candidate n i = true) (range0 (length (search n))).

(** [[index IN range(0, size(l) - 1) WHERE NOT index IN marks | l[index]]]. *)
Definition keep {A} (l : list A) (marks : list nat) : list A :=
  omap (λ index, if bool_decide (index ∈ marks) then None else l !! index)
       (range0 (length l)).

(** One node through the query.  When no index passes the filter there is no
    row left for [n], the aggregation yields no group and [SET] is not run. *)
Definition dedup (n : entity) : entity :=
  match indexesToMerge n with
  | [] => n
  | marks =>
      {| labels := labels n;
         search := keep (search n) marks;
         timestamp := keep (timestamp n) marks |}
  end.

(** [MATCH (n:Node) ...] over the whole store. *)
Definition dedup_query (g : list entity) : list entity :=
  (λ n, if bool_decide ("Node" ∈ labels n) then dedup n else n) <$> g.

(** *** Specification vocabulary *)

Definition substring_of (t s : string) : Prop := ∃ a b, s = a +:+ t +:+ b.

(** Index [i] is dominated: another index holds a text containing it, no more
    than a minute away. *)
Definition marked (values : list string) (timestamps : list Z) (i : nat) : Prop :=
  ∃ j vi vj ti tj,
    j ≠ i ∧ values !! i = Some vi ∧ values !! j = Some vj ∧
    timestamps !! i = Some ti ∧ timestamps !! j = Some tj ∧
    substring_of vi vj ∧ (Z.abs (ti - tj) ≤ 60000)%Z.

(** The kept positions, in increasing order. *)
Definition kept_indexes (len : nat) (marks : list nat) : list nat :=
  filter (λ i, i ∉ marks) (range0 len).

Definition example_log : entity :=
  {| labels := {["Node"]};
     search := ["foo bar"; "foo"; "baz"];
     timestamp := [0; 1000; 120000]%Z |}.

(** The same text twice, one second apart. *)
Definition twice_foo : entity :=
  {| labels := {["Node"]}; search := ["foo"; "foo"]; timestamp := [0; 1000]%Z |}.

End WindowDedup.

(** ** History Analyzer: [src/temp.cy] *)

Module HistoryAnalyzer.

(** *** Pairwise property diff (second query of the file) *)

Record entity := Entity {
  labels : gset string;
  properties : gmap string value
}.

(** [KEYS(props)]. *)
Definition KEYS (props : gmap string value) : list string :=
  (map_to_list props).*1.

(** [[k IN KEYS(propsA) WHERE propsA[k] <> propsB[k] | k]]. *)
Definition differingProperties (propsA propsB : gmap string value) : list string :=
  filter (λ k, holds (neq3 (propsA !! k) (propsB !! k)) = true) (KEYS propsA).

(** [(x:Label {identifier: ident})]: positions and nodes that match. *)
Definition match_Label (g : list entity) (ident : string) : list (nat * entity) :=
  filter (λ p, "Label" ∈ labels p.2 ∧
               holds (eq3 (properties p.2 !! "identifier") (Some (VStr ident))) = true)
         (imap pair g).

(** The whole query: one row [(a, b, differingProperties)] per matched pair. *)
Definition differing_query (g : list entity) : list (nat * nat * list string) :=
  a ← match_Label g "value1";
  b ← match_Label g "value2";
  [(a.1, b.1, differingProperties (properties a.2) (properties b.2))].

Definition props_xy (y : Z) : gmap string value :=
  <["x" := VInt 1]> (<["y" := VInt y]> ∅).

(** *** Chain-weighted difference (first query of the file) *)

(** The typed view the query takes of the store: the [value] property of
    each node (null when absent) and the [LINKED_TO] relationships as
    (start, end) pairs; a node is its position, a relationship too. *)
Record links_graph := LinksGraph {
  node_value : list (option Z);
  LINKED_TO : list (nat * nat)
}.

(** End nodes of the paths [(at)-[:LINKED_TO*]->(x)], depth first; a path
    uses a relationship at most once, so the number of relationships bounds
    the depth. *)
Fixpoint paths_from (fuel : nat) (rels : list (nat * nat)) (used : list nat)
    (at_node : nat) : list nat :=
  match fuel with
  | O => []
  | S fuel =>
      flat_map
        (λ r, if bool_decide (r.2.1 = at_node ∧ r.1 ∉ used)
              then r.2.2 :: paths_from fuel rels (r.1 :: used) r.2.2
              else [])
        (imap pair rels)
  end.

Definition reachable (g : links_graph) (n : nat) : list nat :=
  paths_from (length (LINKED_TO g)) (LINKED_TO g) [] n.

(** [[(n)-[:LINKED_TO*]->(x) | x.value]]: the start node [n] is not part of
    the list. *)
Definition chain_values (g : links_graph) (n : nat) : list (option Z) :=
  (λ x, mjoin (node_value g !! x)) <$> reachable g n.

Definition sub3 (a b : option Z) : option Z := x ← a; y ← b; Some (x - y)%Z.
Definition add3 (a b : option Z) : option Z := x ← a; y ← b; Some (x + y)%Z.
Definition abs3 (a : option Z) : option Z := Z.abs <$> a.

(** [[i IN range(0, chain_length - 2) | abs(values[i] - values[i + 1])]]. *)
Definition differences (values : list (option Z)) (chain_length : Z) : list (option Z) :=
  (λ i : Z, abs3 (sub3 (mjoin (values !! Z.to_nat i))
                       (mjoin (values !! Z.to_nat (i + 1)))))
  <$> seqZ 0 (chain_length - 1).

(** [reduce(total = 0, d in differences | total + d)]. *)
Definition total_difference (differences : list (option Z)) : option Z :=
  foldl add3 (Some 0%Z) differences.

(** [CASE WHEN chain_length > 1 THEN chain_length - 1 ELSE 1 END]. *)
Definition divisor (chain_length : Z) : Z :=
  if bool_decide (chain_length > 1)%Z then (chain_length - 1)%Z else 1%Z.

(** [total_difference / divisor]: on integers Cypher's [/] is the integer
    quotient, truncated toward zero. *)
Definition average_difference (total_difference : option Z) (chain_length : Z) : option Z :=
  (λ t, Z.quot t (divisor chain_length)) <$> total_difference.

(** The rows the five clauses would produce if run. *)
Definition execute (g : links_graph) : list (nat * nat * option Z) :=
  n ← range0 (length (node_value g));
  m ← reachable g n;
  let values := chain_values g n in
  let chain_length := Z.of_nat (length values) in
  [(n, m, average_difference (total_difference (differences values chain_length))
                             chain_length)].

(** *** Variable scope of the clauses

    Before it runs a query Cypher checks that every variable an expression
    reads is in scope.  [WITH] and [RETURN] evaluate their items against the
    scope that enters the clause and leave exactly the names they list. *)

Inductive error := UndefinedVariable (name : string).

(** [expr AS binds]; [reads] lists the free variables of [expr] in order of
    occurrence (variables bound inside a comprehension or [reduce] are not
    free). *)
Record item := Item { reads : list string; binds : string }.

Definition pass (v : string) : item := Item [v] v.

Inductive clause :=
| MATCH (introduces : list string)
| WITH (items : list item)
| RETURN (items : list item).

Definition first_undefined (scope : list string) (items : list item) : option string :=
  head (filter (λ v, v ∉ scope) (items ≫= reads)).

Fixpoint check_scope (scope : list string) (q : list clause) : option error :=
  match q with
  | [] => None
  | MATCH vs :: q => check_scope (scope ++ vs) q
  | WITH items :: q | RETURN items :: q =>
      match first_undefined scope items with
      | Some v => Some (UndefinedVariable v)
      | None => check_scope (binds <$> items) q
      end
  end.

(** The five lines of the query, with what each item reads and binds. *)
Definition average_difference_clauses : list clause :=
  [ MATCH ["n"; "m"];
    WITH [pass "n"; pass "m"; Item ["n"] "values"];
    WITH [pass "n"; pass "m"; pass "values";
          Item ["values"] "chain_length";
          Item ["chain_length"; "values"] "differences"];
    WITH [pass "n"; pass "m"; Item ["differences"] "total_difference"];
    RETURN [pass "n"; pass "m";
            Item ["total_difference"; "chain_length"] "average_difference"] ].

Definition average_difference_query (g : links_graph)
    : error + list (nat * nat * option Z) :=
  match check_scope [] average_difference_clauses with
  | Some e => inl e
  | None => inr (execute g)
  end.

(** The sum of the absolute step-to-step differences of a list. *)
Fixpoint sum_abs_steps (v : list Z) : Z :=
  match v with
  | a :: (b :: _) as rest => (Z.abs (a - b) + sum_abs_steps rest)%Z
  | _ => 0%Z
  end.

(** The chain n0 -> n1 -> n2 with values 10, 12, 9. *)
Definition chain_10_12_9 : links_graph :=
  {| node_value := [Some 10; Some 12; Some 9]%Z; LINKED_TO := [(0, 1); (1, 2)] |}.

(** One node, value 10, no relationship. *)
Definition single_node : links_graph :=
  {| node_value := [Some 10%Z]; LINKED_TO := [] |}.

End HistoryAnalyzer.

(** ** Batched Mutation Executor: [src/ahh.cy] l.1-5 *)

Module BatchedExecutor.

(** The store as the bulk delete sees it: node identities and the
    relationships between them. *)
Record store := Store {
  nodes : gset nat;
  relationships : list (nat * nat)
}.

(** ["MATCH (n) RETURN n"]: every node, once. *)
Definition match_all (s : store) : list nat := elements (nodes s).

(** ["DETACH DELETE n"]: the node goes, with every relationship touching it. *)
Definition DETACH_DELETE (n : nat) (s : store) : store :=
  {| nodes := nodes s ∖ {[n]};
     relationships := filter (λ r, r.1 ≠ n ∧ r.2 ≠ n) (relationships s) |}.

Section Iterate.
Context {St Ent : Type}.
Variable select : St → list Ent.
Variable action : Ent → St → St.

(** Modelled from the spec: the procedure [apoc.periodic.iterate] that
    [src/ahh.cy] calls is not part of the sources; section 4.6 says it
    "repeatedly selects up to batch_size unprocessed matches, applies the
    mutation to that batch as one transaction, and continues until no matches
    remain", one batch after the other when [parallel] is false.  The result
    is the list of batches applied, in order, and the final store. *)
Fixpoint run_batches (fuel batch_size : nat) (pending : list Ent) (s : St)
    : list (list Ent) * St :=
  match fuel, pending with
  | O, _ | _, [] => ([], s)
  | S fuel, _ =>
      let batch := take batch_size pending in
      let s' := foldl (flip action) s batch in
      let r := run_batches fuel batch_size (drop batch_size pending) s' in
      (batch :: r.1, r.2)
  end.

(** The selection is made once; every round takes at least one entity when
    [batch_size] is positive, so the selection's length is fuel enough. *)
Definition iterate (batch_size : nat) (s : St) : list (list Ent) * St :=
  run_batches (length (select s)) batch_size (select s) s.

End Iterate.

(** The call of [src/ahh.cy]:
    [{batchSize: 500, iterateList: true, parallel: false}]. *)
Definition bulk_delete (s : store) : list (list nat) * store :=
  iterate match_all DETACH_DELETE 500 s.

(** Sizes of the successive batches over [n] entities. *)
Fixpoint batch_sizes (fuel batch_size n : nat) : list nat :=
  match fuel, n with
  | O, _ | _, O => []
  | S fuel, _ => batch_size `min` n :: batch_sizes fuel batch_size (n - batch_size)
  end.

(** [ceil(n / b)]. *)
Definition div_ceil (n b : nat) : nat := (n + b - 1) / b.

Definition small_store : store :=
  {| nodes := list_to_set [1; 2; 3; 4; 5]; relationships := [(1, 2); (4, 5)] |}.

End BatchedExecutor.

(** ** The property graph the versioning queries work on *)

Module Graph.

Record node := Node {
  labels : gset string;
  properties : gmap string value
}.

Record relationship := Rel {
  start_node : nat;
  end_node : nat;
  rel_type : string;
  rel_properties : gmap string value
}.

#[global] Instance node_eq_dec : EqDecision node.
Proof. solve_decision. Defined.

#[global] Instance relationship_eq_dec : EqDecision relationship.
Proof. solve_decision. Defined.

(** A node is identified by its position in [nodes]; the queries modelled
    here create nodes and never delete one. *)
Record graph := Graph {
  nodes : list node;
  rels : list relationship
}.

Definition empty : graph := {| nodes := []; rels := [] |}.

(** [{k: v}] in a [CREATE] or a [SET n.k = v]: a null value leaves the
    property unset. *)
Definition set_prop (k : string) (v : option value) (m : gmap string value)
    : gmap string value :=
  match v with
  | Some v => <[k := v]> m
  | None => delete k m
  end.

Definition remove_label (l : string) (n : node) : node :=
  {| labels := labels n ∖ {[l]}; properties := properties n |}.

Definition add_label (l : string) (n : node) : node :=
  {| labels := labels n ∪ {[l]}; properties := properties n |}.

Definition update_node (f : node → node) (i : nat) (g : graph) : graph :=
  {| nodes := alter f i (nodes g); rels := rels g |}.

(** [CREATE (x ...)]: the new node takes the next position. *)
Definition CREATE_node (n : node) (g : graph) : nat * graph :=
  (length (nodes g), {| nodes := nodes g ++ [n]; rels := rels g |}).

Definition CREATE_rel (r : relationship) (g : graph) : graph :=
  {| nodes := nodes g; rels := rels g ++ [r] |}.

(** Relationships start and end at existing nodes. *)
Definition wf (g : graph) : Prop :=
  Forall (λ r, start_node r < length (nodes g) ∧ end_node r < length (nodes g))
         (rels g).

End Graph.

(** ** Version Manager: the update query of [src/unnamed/part_001] *)

Module VersionManager.
Import Graph.

(** The parameters [$id], [$name], [$email] under the names line 2 gives
    them; a parameter may be null. *)
Record params := Params {
  nodeId : option value;
  newName : option value;
  newEmail : option value
}.

(** Rows after line 7 hold [current] alone: a node position. *)

(** Rows after line 17: [current], [newNode]. *)
Record row2 := Row2 { current : nat; newNode : nat }.

(** Rows after line 22: [current], [newNode], [rel], [other]; [rel] carries
    the type and the properties read from it ([other] is its end node). *)
Record row3 := Row3 { row : row2; rel : relationship }.

Definition other (r : row3) : nat := end_node (rel r).

(** [(current:Node:Current {id: nodeId})]. *)
Definition is_current_of (p : params) (n : node) : bool :=
  bool_decide ("Node" ∈ labels n) && bool_decide ("Current" ∈ labels n) &&
  holds (eq3 (properties n !! "id") (nodeId p)).

(** [current.name <> newName OR current.email <> newEmail]. *)
Definition changed (p : params) (n : node) : tv :=
  tv_or (neq3 (properties n !! "name") (newName p))
        (neq3 (properties n !! "email") (newEmail p)).

Definition selected (p : params) (g : graph) (c : nat) : bool :=
  match nodes g !! c with
  | Some n => is_current_of p n && holds (changed p n)
  | None => false
  end.

(** Lines 2-7: [MATCH ... WHERE ... WITH current, newName, newEmail]. *)
Definition MATCH_current (p : params) (g : graph) : list nat :=
  filter (λ c, selected p g c = true) (range0 (length (nodes g))).

(** Line 10: [REMOVE current:Current]. *)
Definition REMOVE_Current (rows : list nat) (g : graph) : graph :=
  foldl (λ g c, update_node (remove_label "Current") c g) g rows.

(** Line 11: [SET current:Historical]. *)
Definition SET_Historical (rows : list nat) (g : graph) : graph :=
  foldl (λ g c, update_node (add_label "Historical") c g) g rows.

(** The node of line 14; [now] is [timestamp()], one value for the whole
    query. *)
Definition new_version (p : params) (now : Z) : node :=
  {| labels := {["Node"; "Current"]};
     properties :=
       set_prop "createdAt" (Some (VInt now))
         (set_prop "email" (newEmail p) (set_prop "name" (newName p) ∅)) |}.

(** Line 14: [CREATE (newNode:Node:Current {...})], once per row. *)
Fixpoint CREATE_newNode (p : params) (now : Z) (rows : list nat) (g : graph)
    : list row2 * graph :=
  match rows with
  | [] => ([], g)
  | c :: rows =>
      let created := CREATE_node (new_version p now) g in
      let rest := CREATE_newNode p now rows created.2 in
      (Row2 c created.1 :: rest.1, rest.2)
  end.

Definition previous_version (now : Z) (r : row2) : relationship :=
  Rel (newNode r) (current r) "PREVIOUS_VERSION" {["from" := VInt now]}.

(** Line 17: [CREATE (newNode)-[:PREVIOUS_VERSION {from: timestamp()}]->(current)]. *)
Definition CREATE_PREVIOUS_VERSION (now : Z) (rows : list row2) (g : graph) : graph :=
  foldl (λ g r, CREATE_rel (previous_version now r) g) g rows.

(** Lines 20-22: [MATCH (current)-[rel]->(other)
    WHERE NOT type(rel) = 'PREVIOUS_VERSION']. *)
Definition MATCH_outgoing (rows : list row2) (g : graph) : list row3 :=
  r ← rows;
  Row3 r <$> filter (λ e, start_node e = current r ∧
                          rel_type e ≠ "PREVIOUS_VERSION") (rels g).

(** The body of the [FOREACH], lines 26-28. *)
Definition clone (now : Z) (r : row3) : relationship :=
  (* CREATE (newNode)-[newRel:RELTYPE {from: timestamp()}]->(other) *)
  let newRel := Rel (newNode (row r)) (other r) "RELTYPE" {["from" := VInt now]} in
  (* SET newRel = properties(rel) *)
  let newRel := Rel (start_node newRel) (end_node newRel) (rel_type newRel)
                    (rel_properties (rel r)) in
  (* REMOVE newRel.from, newRel.to *)
  Rel (start_node newRel) (end_node newRel) (rel_type newRel)
      (delete "to" (delete "from" (rel_properties newRel))).

(** Lines 25-29: [FOREACH (ignoreMe IN CASE WHEN type(rel) = 'RELTYPE'
    THEN [1] ELSE [] END | ...)]. *)
Definition FOREACH_clone (now : Z) (rows : list row3) (g : graph) : graph :=
  foldl (λ g r, if bool_decide (rel_type (rel r) = "RELTYPE")
                then CREATE_rel (clone now r) g else g) g rows.

(** The whole query: the rows of [RETURN newNode] and the graph it leaves. *)
Definition update (p : params) (now : Z) (g : graph) : list nat * graph :=
  let rows := MATCH_current p g in
  let g := REMOVE_Current rows g in
  let g := SET_Historical rows g in
  let created := CREATE_newNode p now rows g in
  let g := CREATE_PREVIOUS_VERSION now created.1 created.2 in
  let rows := MATCH_outgoing created.1 g in
  let g := FOREACH_clone now rows g in
  (newNode ∘ row <$> rows, g).

(** A change feed: updates applied one after the other. *)
Definition updates (feed : list (params * Z)) (g : graph) : graph :=
  foldl (λ g u, (update u.1 u.2 g).2) g feed.

(** *** Specification vocabulary *)

(** The lineage of [k]: the nodes whose [id] is [k]. *)
Definition in_lineage (k : value) (n : node) : Prop :=
  properties n !! "id" = Some k.

Definition is_Current (n : node) : Prop := "Current" ∈ labels n.
Definition is_Historical (n : node) : Prop := "Historical" ∈ labels n.

#[global] Instance in_lineage_dec k n : Decision (in_lineage k n).
Proof. unfold in_lineage. apply _. Defined.

#[global] Instance is_Current_dec n : Decision (is_Current n).
Proof. unfold is_Current. apply _. Defined.

#[global] Instance is_Historical_dec n : Decision (is_Historical n).
Proof. unfold is_Historical. apply _. Defined.

(** Number of Current entities in the lineage of [k]. *)
Definition current_count (k : value) (g : graph) : nat :=
  length (filter (λ n, in_lineage k n ∧ is_Current n) (nodes g)).

Definition lineage_size (k : value) (g : graph) : nat :=
  length (filter (in_lineage k) (nodes g)).

(** Relationships of a given type between two given nodes. *)
Definition rels_between (t : string) (a b : nat) (g : graph) : list relationship :=
  filter (λ e, start_node e = a ∧ end_node e = b ∧ rel_type e = t) (rels g).

Definition outgoing (a : nat) (g : graph) : list relationship :=
  filter (λ e, start_node e = a) (rels g).

(** The comparison of line 6 is true: some compared field is present on
    both sides with different values. *)
Definition differs (p : params) (n : node) : Prop :=
  (∃ x y, properties n !! "name" = Some x ∧ newName p = Some y ∧ x ≠ y) ∨
  (∃ x y, properties n !! "email" = Some x ∧ newEmail p = Some y ∧ x ≠ y).

(** What lines 10-11 do to a matched node. *)
Definition retire (n : node) : node :=
  add_label "Historical" (remove_label "Current" n).

(** The rows on which the [FOREACH] body runs. *)
Definition cloned (r : row3) : Prop := rel_type (rel r) = "RELTYPE".

#[global] Instance cloned_dec r : Decision (cloned r).
Proof. unfold cloned. apply _. Defined.

(** The nodes an update could match for some parameters: labelled [Node]
    and [Current], and holding an [id]. *)
Definition updatable_at (g : graph) (i : nat) : bool :=
  match nodes g !! i with
  | Some x => bool_decide ("Node" ∈ labels x ∧ "Current" ∈ labels x ∧
                           is_Some (properties x !! "id"))
  | None => false
  end.

Definition updatable (g : graph) : list nat :=
  filter (λ i, updatable_at g i = true) (range0 (length (nodes g))).

(** The [PREVIOUS_VERSION] relationships leaving a node. *)
Definition previous_versions (a : nat) (g : graph) : list relationship :=
  filter (λ e, start_node e = a ∧ rel_type e = "PREVIOUS_VERSION") (rels g).

(** *** Sample stores *)

Definition person (ls : list string) (i : option string) (n e : string) : node :=
  {| labels := list_to_set ls;
     properties :=
       set_prop "id" (VStr <$> i)
         (set_prop "name" (Some (VStr n)) (set_prop "email" (Some (VStr e)) ∅)) |}.

Definition upd (i n e : string) : params :=
  Params (Some (VStr i)) (Some (VStr n)) (Some (VStr e)).

(** One Current entity [m1] linked to a target by a [RELTYPE] and by a
    [LINKED_TO] relationship. *)
Definition g_m1 : graph :=
  {| nodes := [person ["Node"; "Current"] (Some "m1") "ann" "ann@x";
               person ["Target"] None "t" "t@x"];
     rels := [Rel 0 1 "RELTYPE" (<["from" := VInt 5]> (<["weight" := VInt 7]> ∅));
              Rel 0 1 "LINKED_TO" ∅] |}.

(** The Current entity of [m1] as stored before it had an email. *)
Definition g_no_email : graph :=
  {| nodes := [{| labels := {["Node"; "Current"]};
                  properties := <["id" := VStr "m1"]>
                                  (<["name" := VStr "ann"]> ∅) |}];
     rels := [] |}.

End VersionManager.

(** ** The ingest query of [src/compare.sh] l.71-93

    The script is a template: it compares and sets [property1], [property2]
    and an elided rest ([...]); the model keeps the two properties written
    out. *)

Module Ingest.
Import Graph.

(** A line of the CSV file, by header. *)
Record csv_row := CsvRow {
  uniqueProperty : option value;
  csvProperty1 : option value;
  csvProperty2 : option value
}.

(** [MERGE] refuses a null property value. *)
Inductive error := NullMergeProperty.

(** Rows after line 73: [n], [row]. *)
Record merged := Merged { n : nat; row : csv_row }.

(** Rows after line 75: [n], [row], [old]; [old] is null when the optional
    match finds nothing ([r] is not read again). *)
Record versioned := Versioned { base : merged; old : option nat }.

Definition is_YourLabel (u : value) (x : node) : Prop :=
  "YourLabel" ∈ labels x ∧ properties x !! "uniqueProperty" = Some u.

#[global] Instance is_YourLabel_dec u x : Decision (is_YourLabel u x).
Proof. unfold is_YourLabel. apply _. Defined.

Definition matches (u : value) (g : graph) (i : nat) : bool :=
  match nodes g !! i with
  | Some x => bool_decide (is_YourLabel u x)
  | None => false
  end.

Definition matching (u : value) (g : graph) : list nat :=
  filter (λ i, matches u g i = true) (range0 (length (nodes g))).

(** Line 72 for one CSV line: bind every node that matches, create one when
    none does. *)
Definition MERGE_row (r : csv_row) (g : graph) : error + list merged * graph :=
  match uniqueProperty r with
  | None => inl NullMergeProperty
  | Some u =>
      match matching u g with
      | [] =>
          let created :=
            CREATE_node {| labels := {["YourLabel"]};
                           properties := {["uniqueProperty" := u]} |} g in
          inr ([Merged created.1 r], created.2)
      | found => inr ((λ i, Merged i r) <$> found, g)
      end
  end.

(** Lines 71-73 over the file, one line after the other. *)
Fixpoint MERGE (csv : list csv_row) (g : graph) : error + list merged * graph :=
  match csv with
  | [] => inr ([], g)
  | r :: csv =>
      match MERGE_row r g with
      | inl e => inl e
      | inr (rows, g) =>
          match MERGE csv g with
          | inl e => inl e
          | inr (rest, g) => inr (rows ++ rest, g)
          end
      end
  end.

Definition has_label (l : string) (g : graph) (i : nat) : bool :=
  match nodes g !! i with
  | Some x => bool_decide (l ∈ labels x)
  | None => false
  end.

(** Line 74: [OPTIONAL MATCH (n)-[r:PREVIOUS_VERSION]->(old:YourLabel_History)]. *)
Definition OPTIONAL_MATCH_old (rows : list merged) (g : graph) : list versioned :=
  m ← rows;
  match filter (λ e, start_node e = n m ∧ rel_type e = "PREVIOUS_VERSION" ∧
                     has_label "YourLabel_History" g (end_node e) = true)
              (rels g) with
  | [] => [Versioned m None]
  | found => (λ e, Versioned m (Some (end_node e))) <$> found
  end.

Definition prop_of (g : graph) (i : option nat) (k : string) : option value :=
  i ← i; x ← nodes g !! i; properties x !! k.

(** Ascending order of values: strings before numbers, null last. *)
Definition asc_le (a b : option value) : bool :=
  match a, b with
  | _, None => true
  | None, Some _ => false
  | Some (VStr s), Some (VStr t) => String.leb s t
  | Some (VStr _), Some (VInt _) => true
  | Some (VInt _), Some (VStr _) => false
  | Some (VInt x), Some (VInt y) => bool_decide (x ≤ y)%Z
  end.

(** Line 76, [ORDER BY old.version DESC]: a stable insertion sort, nulls
    first; Cypher leaves the order among equal keys open. *)
Fixpoint insert_desc (g : graph) (x : versioned) (l : list versioned) : list versioned :=
  match l with
  | [] => [x]
  | y :: l' =>
      if asc_le (prop_of g (old y) "version") (prop_of g (old x) "version")
      then x :: l
      else y :: insert_desc g x l'
  end.

Definition ORDER_BY_version_DESC (g : graph) (rows : list versioned) : list versioned :=
  foldr (insert_desc g) [] rows.

(** Lines 78-84: [CASE WHEN old IS NULL OR (old.property1 <> row.csvProperty1
    OR old.property2 <> row.csvProperty2) THEN true ELSE false END]. *)
Definition hasChanged (g : graph) (v : versioned) : bool :=
  holds (tv_or (Some (bool_decide (old v = None)))
               (tv_or (neq3 (prop_of g (old v) "property1") (csvProperty1 (row (base v))))
                      (neq3 (prop_of g (old v) "property2") (csvProperty2 (row (base v)))))).

(** Lines 85-88: the [FOREACH] body runs when [hasChanged AND old IS NOT NULL]. *)
Definition FOREACH_relink (now : Z) (rows : list versioned) (g : graph) : graph :=
  foldl (λ g' v,
           match old v with
           | Some o =>
               if hasChanged g v
               then CREATE_rel (Rel (n (base v)) o "PREVIOUS_VERSION"
                                    {["timestamp" := VInt now]})
                      (update_node (remove_label "CurrentVersion") (n (base v)) g')
               else g'
           | None => g'
           end) g rows.

(** Lines 90-93: [SET n.property1 = ..., n.property2 = ...] then
    [SET n:CurrentVersion]. *)
Definition SET_row (m : merged) (x : node) : node :=
  add_label "CurrentVersion"
    {| labels := labels x;
       properties := set_prop "property2" (csvProperty2 (row m))
                       (set_prop "property1" (csvProperty1 (row m)) (properties x)) |}.

Definition SET_rows (rows : list merged) (g : graph) : graph :=
  foldl (λ g m, update_node (SET_row m) (n m) g) g rows.

(** The whole query; [LIMIT 1] of line 77 cuts the table of the whole file
    down to its first row. *)
Definition ingest (csv : list csv_row) (now : Z) (g : graph) : error + graph :=
  match MERGE csv g with
  | inl e => inl e
  | inr (rows, g) =>
      let rows := OPTIONAL_MATCH_old rows g in
      let rows := take 1 (ORDER_BY_version_DESC g rows) in
      let g := FOREACH_relink now rows g in
      inr (SET_rows (base <$> rows) g)
  end.

Definition first_version (r : csv_row) (u : value) : node :=
  {| labels := {["YourLabel"; "CurrentVersion"]};
     properties := set_prop "property2" (csvProperty2 r)
                     (set_prop "property1" (csvProperty1 r)
                        {["uniqueProperty" := u]}) |}.

(** *** Sample records and store *)

Definition line_k (v : Z) : csv_row := CsvRow (Some (VStr "k")) (Some (VInt v)) None.

Definition store_k : graph :=
  {| nodes := [first_version (line_k 1) (VStr "k")]; rels := [] |}.

End Ingest.

(** ** The daily comparison scripts of [src/compare.sh] l.1-70: file names

    Both scripts loop over today's files, derive yesterday's file name and
    the name of the output from each, and hand the contents to [sort] and
    [diff].  The names are modelled; a path is a list of characters. *)

Module DailyCompare.

Definition chars (s : string) : list ascii := String.list_ascii_of_string s.

(** [DIRECTORY="path/to/your/files"]. *)
Definition DIRECTORY : list ascii := chars "path/to/your/files".

(** [${s/pat/rep}] for a pattern without wildcard characters (a date is all
    digits): the leftmost occurrence of [pat] is replaced, a string without
    one is left as it is. *)
Fixpoint replace_first (pat rep s : list ascii) : list ascii :=
  if bool_decide (pat `prefix_of` s) then rep ++ drop (length pat) s
  else match s with
       | [] => []
       | c :: s' => c :: replace_first pat rep s'
       end.

(** [${s%suf}]: the suffix is removed when [s] ends with it. *)
Definition strip_suffix (suf s : list ascii) : list ascii :=
  if bool_decide (suf `suffix_of` s) then take (length s - length suf) s else s.

(** Line 13 and line 48: [YESTERDAY_FILE="${TODAY_FILE/$TODAY/$YESTERDAY}"]. *)
Definition YESTERDAY_FILE (TODAY YESTERDAY TODAY_FILE : list ascii) : list ascii :=
  replace_first TODAY YESTERDAY TODAY_FILE.

(** Line 53: [DIFF_OUTPUT="${TODAY_FILE%.csv}_diff.csv"]. *)
Definition DIFF_OUTPUT (TODAY_FILE : list ascii) : list ascii :=
  strip_suffix (chars ".csv") TODAY_FILE ++ chars "_diff.csv".

(** Line 18: [DIFF_OUTPUT="${TODAY_FILE_GZ%.csv.gz}_diff.csv"]. *)
Definition DIFF_OUTPUT_GZ (TODAY_FILE_GZ : list ascii) : list ascii :=
  strip_suffix (chars ".csv.gz") TODAY_FILE_GZ ++ chars "_diff.csv".

(** [pat] occurs somewhere in [s]. *)
Fixpoint occurs (pat s : list ascii) : bool :=
  bool_decide (pat `prefix_of` s) ||
  match s with
  | [] => false
  | _ :: s' => occurs pat s'
  end.

Definition slash : ascii := "/"%char.
Definition dot : ascii := "."%char.

(** The loop patterns ["$DIRECTORY"/*"$TODAY"*.csv] (line 46) and
    ["$DIRECTORY"/*"$TODAY"*.csv.gz] (line 11), as a test on a path: a file
    name inside the directory that ends with [ext] and holds the date before
    it; [*] matches neither a slash nor the dot of a hidden file. *)
Definition glob (TODAY ext path : list ascii) : bool :=
  let name := drop (length DIRECTORY + 1) path in
  bool_decide ((DIRECTORY ++ [slash]) `prefix_of` path) &&
  negb (bool_decide (slash ∈ name)) &&
  negb (bool_decide (head name = Some dot)) &&
  bool_decide (ext `suffix_of` name) &&
  occurs TODAY (take (length name - length ext) name).

(** A decimal digit, as [date +%Y%m%d] prints them. *)
Definition is_digit (c : ascii) : bool :=
  bool_decide (48 ≤ Ascii.nat_of_ascii c ≤ 57).

Definition sample_today : list ascii :=
  DIRECTORY ++ chars "/sales_20240102.csv".

End DailyCompare.
(** * Facts *)

(** ** Three-valued logic *)

Module CypherFacts.

Lemma holds_Some b : holds (Some b) = b.
Proof. by destruct b. Qed.

Lemma holds_and a b : holds (tv_and a b) = holds a && holds b.
Proof. by destruct a as [[]|], b as [[]|]. Qed.

Lemma holds_or a b : holds (tv_or a b) = holds a || holds b.
Proof. by destruct a as [[]|], b as [[]|]. Qed.

Lemma holds_any ps : holds (tv_any ps) = true ↔ ∃ p, p ∈ ps ∧ holds p = true.
Proof.
  unfold tv_any. split.
  - repeat case_bool_decide; simpl; try done.
    intros _. exists (Some true). done.
  - intros ([[]|] & Hin & Hp); simpl in Hp; try done.
    by rewrite bool_decide_eq_true_2.
Qed.

Lemma holds_eq3 {A} `{EqDecision A} (a b : option A) :
  holds (eq3 a b) = true ↔ ∃ x, a = Some x ∧ b = Some x.
Proof.
  destruct a as [x|], b as [y|]; simpl; try (split; [done | by intros (? & ? & ?)]).
  case_bool_decide; simpl; split; try done.
  - intros _. exists x. by subst.
  - intros (? & ? & ?). congruence.
Qed.

Lemma holds_neq3 {A} `{EqDecision A} (a b : option A) :
  holds (neq3 a b) = true ↔ ∃ x y, a = Some x ∧ b = Some y ∧ x ≠ y.
Proof.
  destruct a as [x|], b as [y|]; simpl;
    try (split; [done | by intros (? & ? & ? & ? & ?)]).
  case_bool_decide; simpl; split; try done.
  - intros (? & ? & ? & ? & ?). congruence.
  - intros _. by exists x, y.
Qed.

End CypherFacts.

Import CypherFacts.

(** ** Window Deduplicator *)

Module DedupFacts.
Import WindowDedup.

(** *** Strings *)

Lemma starts_with_spec s t : starts_with s t = true ↔ ∃ b, s = t +:+ b.
Proof.
  revert s. induction t as [|c t IH]; intros s; simpl.
  - split; [intros _; exists s; reflexivity | done].
  - destruct s as [|a s]; simpl.
    + split; [done | intros (? & ?); discriminate].
    + rewrite andb_true_iff, bool_decide_eq_true, IH. split.
      * intros (-> & b & ->). by exists b.
      * intros (b & Hb). injection Hb as -> ->. split; [done | by exists b].
Qed.

Lemma CONTAINS_spec s t : CONTAINS s t = true ↔ substring_of t s.
Proof.
  unfold substring_of. induction s as [|c s IH]; simpl.
  - rewrite orb_false_r, starts_with_spec. split.
    + intros (b & Hb). by exists EmptyString, b.
    + intros ([|] & b & Hb); [by exists b | done].
  - rewrite orb_true_iff, starts_with_spec, IH. split.
    + intros [(b & Hb) | (a & b & Hb)].
      * by exists EmptyString, b.
      * exists (String c a), b. simpl. by rewrite Hb.
    + intros ([|c' a] & b & Hb); simpl in Hb.
      * left. by exists b.
      * right. injection Hb as -> ->. by exists a, b.
Qed.

(** *** The filter is the containment-within-window test *)

Lemma merge_candidate_spec n i :
  merge_candidate n i = true ↔ marked (search n) (timestamp n) i.
Proof.
  unfold merge_candidate, marked. rewrite holds_any. split.
  - intros (p & Hin & Hp). apply list_elem_of_fmap in Hin as (j & -> & _).
    rewrite !holds_and in Hp.
    apply andb_true_iff in Hp as [Hp Hw]. apply andb_true_iff in Hp as [Hj Hc].
    rewrite holds_Some in Hj. apply bool_decide_eq_true in Hj.
    destruct (search n !! j) as [vj|] eqn:Evj; [|done].
    destruct (search n !! i) as [vi|] eqn:Evi; [|done].
    destruct (timestamp n !! j) as [tj|] eqn:Etj; [|done].
    destruct (timestamp n !! i) as [ti|] eqn:Eti; [|done].
    unfold contains3 in Hc. unfold within3 in Hw. rewrite holds_Some in Hc, Hw.
    apply CONTAINS_spec in Hc. apply bool_decide_eq_true in Hw.
    exists j, vi, vj, ti, tj. repeat split; try done. lia.
  - intros (j & vi & vj & ti & tj & Hj & Evi & Evj & Eti & Etj & Hc & Hw).
    eexists. split.
    + apply list_elem_of_fmap. exists j. split; [reflexivity|].
      apply elem_of_seq. apply lookup_lt_Some in Evj. lia.
    + rewrite Evi, Evj, Eti, Etj. unfold contains3, within3.
      apply CONTAINS_spec in Hc. rewrite Hc.
      rewrite !bool_decide_eq_true_2; [done | lia | done].
Qed.

Lemma elem_of_indexesToMerge n i :
  i ∈ indexesToMerge n ↔ marked (search n) (timestamp n) i.
Proof.
  unfold indexesToMerge, range0.
  rewrite list_elem_of_filter, elem_of_seq, merge_candidate_spec.
  split; [by intros [? _] | intros H; split; [done|]].
  destruct H as (j & vi & ? & ? & ? & _ & Evi & _).
  apply lookup_lt_Some in Evi. lia.
Qed.

Lemma filter_none_true {A} (P : A → Prop) `{∀ x, Decision (P x)} l :
  Forall (λ x, ¬ P x) l → filter P l = [].
Proof.
  induction 1 as [|x l Hx _ IH]; [done|]. by rewrite filter_cons_False.
Qed.

(** *** The rebuilt lists *)

Lemma omap_Forall_ext {A B} (f g : A → option B) l :
  Forall (λ x, f x = g x) l → omap f l = omap g l.
Proof. induction 1 as [|x l Hx _ IH]; csimpl; [done|]. by rewrite Hx, IH. Qed.

Lemma keep_snoc {A} (l : list A) x marks :
  keep (l ++ [x]) marks =
  keep l marks ++ (if bool_decide (length l ∈ marks) then [] else [x]).
Proof.
  unfold keep, range0. rewrite length_app. simpl.
  rewrite seq_app, omap_app. simpl. f_equal.
  - apply omap_Forall_ext, Forall_forall. intros i Hi%elem_of_seq.
    case_bool_decide; [done|]. apply lookup_app_l. lia.
  - case_bool_decide; [done|].
    rewrite lookup_app_r by lia. by rewrite Nat.sub_diag.
Qed.

Lemma keep_nil_marks {A} (l : list A) : keep l [] = l.
Proof.
  induction l as [|x l IH] using rev_ind; [done|].
  rewrite keep_snoc, IH. case_bool_decide as H; [|done]. by apply elem_of_nil in H.
Qed.

Lemma keep_sublist {A} (l : list A) marks : keep l marks `sublist_of` l.
Proof.
  induction l as [|x l IH] using rev_ind; [done|].
  rewrite keep_snoc. apply sublist_app; [done|].
  case_bool_decide; [apply sublist_nil_l | done].
Qed.

Lemma keep_length {A B} (l : list A) (k : list B) marks :
  length l = length k → length (keep l marks) = length (keep k marks).
Proof.
  revert k. induction l as [|x l IH] using rev_ind; intros k Hlen.
  - destruct k; [done | simpl in Hlen; lia].
  - destruct k as [|y k _] using rev_ind.
    + rewrite length_app in Hlen. simpl in Hlen. lia.
    + rewrite !length_app in Hlen. simpl in Hlen.
      rewrite !keep_snoc, !length_app.
      assert (length l = length k) as Hlk by lia.
      rewrite (IH k Hlk), Hlk. by case_bool_decide.
Qed.

Lemma keep_kept_indexes {A} (l : list A) marks :
  Forall2 (λ k v, l !! k = Some v) (kept_indexes (length l) marks) (keep l marks).
Proof.
  unfold kept_indexes, keep, range0.
  assert (Forall (λ i, i < length l) (seq 0 (length l))) as Hlt.
  { apply Forall_forall. intros i Hi%elem_of_seq. lia. }
  induction Hlt as [|i rest Hi _ IH]; simpl; [constructor|].
  rewrite filter_cons. case_bool_decide as Hm.
  - rewrite decide_False by (intros Hn; by apply Hn). done.
  - rewrite decide_True by done.
    destruct (lookup_lt_is_Some_2 l i Hi) as [v Hv]. rewrite Hv.
    by constructor.
Qed.

Lemma seq_sorted a n : StronglySorted lt (seq a n).
Proof.
  revert a. induction n as [|n IH]; intros a; simpl; constructor; [done|].
  apply Forall_forall. intros i Hi%elem_of_seq. lia.
Qed.

Lemma kept_indexes_sorted len marks : StronglySorted lt (kept_indexes len marks).
Proof.
  unfold kept_indexes, range0. generalize (seq_sorted 0 len).
  induction 1 as [|i rest _ IH Hall]; [constructor|].
  rewrite filter_cons. case_decide; [|done].
  constructor; [done|].
  apply Forall_forall. intros k [_ Hk]%list_elem_of_filter.
  by eapply Forall_forall in Hall.
Qed.

Lemma dedup_unfold n :
  dedup n =
  {| labels := labels n;
     search := keep (search n) (indexesToMerge n);
     timestamp := keep (timestamp n) (indexesToMerge n) |}.
Proof.
  unfold dedup. destruct (indexesToMerge n) eqn:E; [|done].
  rewrite !keep_nil_marks. by destruct n.
Qed.

(** C8. On an entity whose two lists have equal length, the query marks
    exactly the indices [i] for which another index [j] holds a text that
    contains [values[i]] with timestamps at most 60000 ms apart; both lists are
    rebuilt from the unmarked indices, taken in increasing order, so each
    result is a subsequence of its original and the two results have equal
    length.  The log [("foo bar", 0), ("foo", 1000), ("baz", 120000)] becomes
    "foo bar", "baz" with timestamps 0, 120000. *)
Theorem dedup_removes_dominated_entries :
  (∀ n : entity, length (search n) = length (timestamp n) →
     let n' := dedup n in
     let kept := kept_indexes (length (search n)) (indexesToMerge n) in
     (∀ i, i ∈ indexesToMerge n ↔ marked (search n) (timestamp n) i) ∧
     (∀ i, i ∈ kept ↔
           i < length (search n) ∧ ¬ marked (search n) (timestamp n) i) ∧
     StronglySorted lt kept ∧
     Forall2 (λ k v, search n !! k = Some v) kept (search n') ∧
     Forall2 (λ k t, timestamp n !! k = Some t) kept (timestamp n') ∧
     search n' `sublist_of` search n ∧
     timestamp n' `sublist_of` timestamp n ∧
     length (search n') = length (timestamp n') ∧
     labels n' = labels n) ∧
  dedup example_log =
    {| labels := {["Node"]};
       search := ["foo bar"; "baz"];
       timestamp := [0; 120000]%Z |}.
Proof.
  split; [|by vm_compute].
  intros n Hlen n' kept. subst n' kept. rewrite dedup_unfold. simpl.
  split_and!.
  - apply elem_of_indexesToMerge.
  - intros i. unfold kept_indexes, range0.
    rewrite list_elem_of_filter, elem_of_seq, elem_of_indexesToMerge.
    split; [intros [? ?] | intros [? ?]]; split; (done || lia).
  - apply kept_indexes_sorted.
  - apply keep_kept_indexes.
  - rewrite Hlen. apply keep_kept_indexes.
  - apply keep_sublist.
  - apply keep_sublist.
  - by apply keep_length.
  - done.
Qed.

Lemma dedup_removes_dominated_entries_witness :
  length (search example_log) = length (timestamp example_log) ∧
  search (dedup example_log) `sublist_of` search example_log ∧
  length (search (dedup example_log)) = length (timestamp (dedup example_log)).
Proof.
  split; [reflexivity|].
  pose proof (proj1 dedup_removes_dominated_entries example_log eq_refl) as H.
  simpl in H. destruct H as (_ & _ & _ & _ & _ & Hs & _ & Hl & _).
  split; [exact Hs | exact Hl].
Defined.

(** *** A second pass, duplicates *)

Lemma kept_indexes_NoDup len marks : NoDup (kept_indexes len marks).
Proof. unfold kept_indexes, range0. apply NoDup_filter, NoDup_seq. Qed.

Lemma dedup_lookup n a va ta :
  length (search n) = length (timestamp n) →
  search (dedup n) !! a = Some va → timestamp (dedup n) !! a = Some ta →
  ∃ k, kept_indexes (length (search n)) (indexesToMerge n) !! a = Some k ∧
       search n !! k = Some va ∧ timestamp n !! k = Some ta.
Proof.
  intros Hlen Hva Hta. rewrite dedup_unfold in Hva, Hta. simpl in Hva, Hta.
  pose proof (keep_kept_indexes (search n) (indexesToMerge n)) as Hs.
  pose proof (keep_kept_indexes (timestamp n) (indexesToMerge n)) as Ht.
  rewrite <- Hlen in Ht.
  destruct (Forall2_lookup_r _ _ _ _ _ Hs Hva) as (k & Hk & Hsk).
  destruct (Forall2_lookup_r _ _ _ _ _ Ht Hta) as (k' & Hk' & Htk).
  exists k. split_and!; [done|done|]. congruence.
Qed.

(** A second pass over one entity removes nothing. *)
Lemma dedup_idempotent (n : entity) :
  length (search n) = length (timestamp n) → dedup (dedup n) = dedup n.
Proof.
  intros Hlen.
  assert (indexesToMerge (dedup n) = []) as Hnil; [|unfold dedup at 1; by rewrite Hnil].
  unfold indexesToMerge. apply filter_none_true, Forall_forall. intros a _.
  rewrite merge_candidate_spec.
  intros (b & va & vb & ta & tb & Hne & Hva & Hvb & Hta & Htb & Hsub & Hwin).
  destruct (dedup_lookup n a va ta Hlen Hva Hta) as (ka & Hka & Hsa & Hta').
  destruct (dedup_lookup n b vb tb Hlen Hvb Htb) as (kb & Hkb & Hsb & Htb').
  assert (ka ∈ kept_indexes (length (search n)) (indexesToMerge n)) as Hin.
  { by eapply list_elem_of_lookup_2. }
  apply list_elem_of_filter in Hin as [Hnot _]. apply Hnot.
  apply elem_of_indexesToMerge. exists kb, va, vb, ta, tb.
  split_and!; try done.
  intros ->. apply Hne. symmetry.
  eapply NoDup_lookup; [apply kept_indexes_NoDup | done | done].
Qed.

Lemma dedup_labels n : labels (dedup n) = labels n.
Proof. by rewrite dedup_unfold. Qed.

(** X10. Running the query a second time changes nothing: on a store whose
    entities have search and timestamp lists of equal length the query is
    idempotent, because whatever survives the first pass is dominated by no
    other survivor. *)
Theorem dedup_query_idempotent (g : list entity) :
  Forall (λ n, length (search n) = length (timestamp n)) g →
  dedup_query (dedup_query g) = dedup_query g.
Proof.
  intros Hall. unfold dedup_query. rewrite <- list_fmap_compose.
  apply Forall_fmap_ext_1. eapply Forall_impl; [apply Hall|].
  intros n Hlen. unfold compose.
  destruct (decide ("Node" ∈ labels n)) as [HN|HN].
  - rewrite (bool_decide_eq_true_2 _ HN).
    rewrite bool_decide_eq_true_2 by (by rewrite dedup_labels).
    by apply dedup_idempotent.
  - rewrite (bool_decide_eq_false_2 _ HN). by rewrite (bool_decide_eq_false_2 _ HN).
Qed.

Lemma dedup_query_idempotent_witness :
  Forall (λ n, length (search n) = length (timestamp n)) [example_log; twice_foo] ∧
  dedup_query (dedup_query [example_log; twice_foo]) = dedup_query [example_log; twice_foo].
Proof.
  assert (Forall (λ n, length (search n) = length (timestamp n))
            [example_log; twice_foo]) as H by (by repeat constructor).
  split; [done|]. by apply dedup_query_idempotent.
Defined.

Lemma append_empty_r v : v +:+ EmptyString = v.
Proof.
  induction v as [|c v IH]; [reflexivity|].
  change (String c (v +:+ EmptyString) = String c v). by rewrite IH.
Qed.

Lemma substring_of_refl v : substring_of v v.
Proof.
  exists EmptyString, EmptyString.
  change (v = v +:+ EmptyString). by rewrite append_empty_r.
Qed.

(** X11. Two entries with the same text at most 60000 ms apart contain each
    other, so the query drops both: neither position survives and no copy
    of the text is kept for them. *)
Theorem dedup_drops_both_duplicates (n : entity) i j v ti tj :
  i ≠ j →
  search n !! i = Some v → search n !! j = Some v →
  timestamp n !! i = Some ti → timestamp n !! j = Some tj →
  (Z.abs (ti - tj) ≤ 60000)%Z →
  i ∈ indexesToMerge n ∧ j ∈ indexesToMerge n ∧
  (i ∉ kept_indexes (length (search n)) (indexesToMerge n)) ∧
  (j ∉ kept_indexes (length (search n)) (indexesToMerge n)).
Proof.
  intros Hne Hi Hj Hti Htj Hwin.
  assert (i ∈ indexesToMerge n) as Hmi.
  { apply elem_of_indexesToMerge. exists j, v, v, ti, tj.
    split_and!; try done. apply substring_of_refl. }
  assert (j ∈ indexesToMerge n) as Hmj.
  { apply elem_of_indexesToMerge. exists i, v, v, tj, ti.
    split_and!; try done; [apply substring_of_refl | lia]. }
  split_and!; [done | done | |];
    intros [Hnot _]%list_elem_of_filter; by apply Hnot.
Qed.

Lemma dedup_drops_both_duplicates_witness :
  search (dedup twice_foo) = [] ∧ 0 ∈ indexesToMerge twice_foo ∧ 1 ∈ indexesToMerge twice_foo.
Proof.
  split; [by vm_compute|].
  destruct (dedup_drops_both_duplicates twice_foo 0 1 "foo" 0 1000) as (H0 & H1 & _);
    [done | reflexivity | reflexivity | reflexivity | reflexivity | by vm_compute | done].
Defined.

End DedupFacts.

(** ** History Analyzer *)

Module AnalyzerFacts.
Import HistoryAnalyzer.

(** *** Property diff *)

Lemma elem_of_KEYS (props : gmap string value) k :
  k ∈ KEYS props ↔ is_Some (props !! k).
Proof.
  unfold KEYS. rewrite list_elem_of_fmap. split.
  - intros ([k' v] & -> & Hin). apply elem_of_map_to_list in Hin. by exists v.
  - intros [v Hv]. exists (k, v). split; [done|]. by apply elem_of_map_to_list.
Qed.

Lemma elem_of_differingProperties (propsA propsB : gmap string value) k :
  k ∈ differingProperties propsA propsB ↔
  ∃ va vb, propsA !! k = Some va ∧ propsB !! k = Some vb ∧ va ≠ vb.
Proof.
  unfold differingProperties.
  rewrite list_elem_of_filter, holds_neq3, elem_of_KEYS. split.
  - by intros [? _].
  - intros (va & vb & Ha & Hb & Hne). split; [by exists va, vb | by exists va].
Qed.

Lemma differing_query_rows g ia ib d :
  (ia, ib, d) ∈ differing_query g →
  ∃ a b, g !! ia = Some a ∧ g !! ib = Some b ∧
         d = differingProperties (properties a) (properties b).
Proof.
  unfold differing_query. intros H.
  apply list_elem_of_bind in H as ([i a] & H & Ha).
  apply list_elem_of_bind in H as ([j b] & H & Hb).
  apply list_elem_of_singleton in H. simpl in H. injection H as -> -> ->.
  unfold match_Label in Ha, Hb.
  apply list_elem_of_filter in Ha as [_ Ha], Hb as [_ Hb].
  apply list_elem_of_lookup in Ha as [? Ha], Hb as [? Hb].
  rewrite list_lookup_imap in Ha, Hb.
  apply fmap_Some in Ha as (a' & Ha & Ea), Hb as (b' & Hb & Eb).
  injection Ea as -> ->. injection Eb as -> ->. by exists a', b'.
Qed.

(** In the query the two entities are found by their [identifier], which
    therefore is always one of the differing keys. *)
Example differing_query_rows_example :
  let a := {| labels := {["Label"]};
              properties := <["identifier" := VStr "value1"]> (props_xy 2) |} in
  let b := {| labels := {["Label"]};
              properties := <["identifier" := VStr "value2"]> (props_xy 3) |} in
  ∃ d, differing_query [a; b] = [(0, 1, d)] ∧ d ≡ₚ ["identifier"; "y"].
Proof. eexists. split; [by vm_compute|]. apply Permutation_swap. Qed.

Lemma elem_of_match_Label g ident i a :
  (i, a) ∈ match_Label g ident ↔
  g !! i = Some a ∧ "Label" ∈ labels a ∧
  properties a !! "identifier" = Some (VStr ident).
Proof.
  unfold match_Label. rewrite list_elem_of_filter, holds_eq3. simpl. split.
  - intros [[HL (x & Hx & Hx')] Hin].
    apply list_elem_of_lookup in Hin as [k Hk].
    rewrite list_lookup_imap in Hk.
    apply fmap_Some in Hk as (a' & Ha & E). injection E as -> ->.
    split_and!; [done|done|congruence].
  - intros (Hi & HL & Hid). split; [split; [done | by exists (VStr ident)]|].
    apply list_elem_of_lookup. exists i. by rewrite list_lookup_imap, Hi.
Qed.

(** X12. The diff does not depend on the order of its arguments as a set
    of keys, and an entity compared with itself has no differing key. *)
Theorem differingProperties_symmetric (propsA propsB : gmap string value) :
  (∀ k, k ∈ differingProperties propsA propsB ↔
        k ∈ differingProperties propsB propsA) ∧
  differingProperties propsA propsA = [].
Proof.
  split.
  - intros k. rewrite !elem_of_differingProperties. split;
      intros (x & y & Hx & Hy & Hne); exists y, x; by split_and!.
  - destruct (differingProperties propsA propsA) as [|k l] eqn:E; [done|].
    assert (k ∈ differingProperties propsA propsA) as Hk by (rewrite E; left).
    apply elem_of_differingProperties in Hk as (x & y & Hx & Hy & Hne).
    congruence.
Qed.

(** X13. The query pairs two different nodes, found by the identifiers
    [value1] and [value2]; since these differ, [identifier] is among the
    differing keys of every row it returns. *)
Theorem differing_query_lists_identifier g ia ib d :
  (ia, ib, d) ∈ differing_query g →
  ia ≠ ib ∧ "identifier" ∈ d ∧
  ∃ a b, g !! ia = Some a ∧ g !! ib = Some b ∧
         properties a !! "identifier" = Some (VStr "value1") ∧
         properties b !! "identifier" = Some (VStr "value2") ∧
         d = differingProperties (properties a) (properties b).
Proof.
  unfold differing_query. intros H.
  apply list_elem_of_bind in H as ([i a] & H & Ha).
  apply list_elem_of_bind in H as ([j b] & H & Hb).
  apply list_elem_of_singleton in H. simpl in H. injection H as -> -> ->.
  apply elem_of_match_Label in Ha as (Ha & _ & Hida), Hb as (Hb & _ & Hidb).
  split_and!.
  - intros ->. congruence.
  - apply elem_of_differingProperties.
    exists (VStr "value1"), (VStr "value2"). by split_and!.
  - by exists a, b.
Qed.

Lemma differing_query_lists_identifier_witness :
  let a := {| labels := {["Label"]};
              properties := <["identifier" := VStr "value1"]> (props_xy 2) |} in
  let b := {| labels := {["Label"]};
              properties := <["identifier" := VStr "value2"]> (props_xy 3) |} in
  ∃ d, (0, 1, d) ∈ differing_query [a; b] ∧ "identifier" ∈ d.
Proof.
  intros a b.
  assert ((0, 1, differingProperties (properties a) (properties b))
            ∈ differing_query [a; b]) as Hin.
  { replace (differing_query [a; b])
      with [(0, 1, differingProperties (properties a) (properties b))]
      by (by vm_compute).
    left. }
  eexists. split; [exact Hin|].
  by destruct (differing_query_lists_identifier [a; b] 0 1 _ Hin) as (_ & ? & _).
Defined.

(** C7. For two entities the diff lists exactly the property keys that both
    maps hold with different values; a key that one of the maps lacks is
    never listed, and no key is listed twice.  [{x:1, y:2}] against
    [{x:1, y:3}] gives [y]. *)
Theorem differingProperties_exact (a b : entity) :
  let d := differingProperties (properties a) (properties b) in
  (∀ k, k ∈ d ↔
        ∃ va vb, properties a !! k = Some va ∧ properties b !! k = Some vb ∧
                 va ≠ vb) ∧
  (∀ k, properties a !! k = None ∨ properties b !! k = None → k ∉ d) ∧
  NoDup d ∧
  differingProperties (props_xy 2) (props_xy 3) = ["y"].
Proof.
  simpl. split_and!.
  - apply elem_of_differingProperties.
  - intros k Hk (va & vb & Ha & Hb & _)%elem_of_differingProperties.
    destruct Hk; congruence.
  - apply NoDup_filter, NoDup_fst_map_to_list.
  - by vm_compute.
Qed.

(** *** Chain difference: what the expressions compute *)

Lemma divisor_max chain_length : divisor chain_length = Z.max 1 (chain_length - 1).
Proof. unfold divisor. case_bool_decide; lia. Qed.

Lemma differences_step (a b : option Z) vs (k : nat) :
  differences (a :: b :: vs) (Z.of_nat (S (S k))) =
  abs3 (sub3 a b) :: differences (b :: vs) (Z.of_nat (S k)).
Proof.
  unfold differences.
  replace (Z.of_nat (S (S k)) - 1)%Z with (Z.succ (Z.of_nat k)) by lia.
  replace (Z.of_nat (S k) - 1)%Z with (Z.of_nat k) by lia.
  rewrite seqZ_cons by lia. rewrite fmap_cons. f_equal.
  rewrite Z.pred_succ, <- (fmap_add_seqZ 1 0), <- list_fmap_compose.
  apply list_fmap_ext. intros i x [-> _]%lookup_seqZ. simpl.
  replace (Z.to_nat (1 + (0 + Z.of_nat i))) with (S (Z.to_nat (0 + Z.of_nat i))) by lia.
  replace (Z.to_nat (1 + (0 + Z.of_nat i) + 1)) with (S (Z.to_nat (0 + Z.of_nat i + 1))) by lia.
  done.
Qed.

Lemma foldl_add3_differences acc (v : list Z) :
  foldl add3 (Some acc) (differences (Some <$> v) (Z.of_nat (length v))) =
  Some (acc + sum_abs_steps v)%Z.
Proof.
  revert acc. induction v as [|a v IH]; intros acc.
  - simpl. f_equal. lia.
  - destruct v as [|b v].
    + simpl. f_equal. lia.
    + change (Some <$> a :: b :: v) with (Some a :: Some b :: (Some <$> v)).
      change (length (a :: b :: v)) with (S (S (length v))).
      rewrite differences_step. simpl foldl.
      change (Some b :: (Some <$> v)) with (Some <$> b :: v).
      change (S (length v)) with (length (b :: v)).
      rewrite IH. f_equal. simpl. lia.
Qed.

(** X2. With [chain_length] supplied, the expressions of lines 3 to 5 compute
    the summed absolute steps over [max(1, n - 1)], as an integer quotient. *)
Lemma average_difference_formula (v : list Z) :
  let n := Z.of_nat (length v) in
  average_difference (total_difference (differences (Some <$> v) n)) n =
  Some (Z.quot (sum_abs_steps v) (Z.max 1 (n - 1))).
Proof.
  simpl. unfold total_difference, average_difference.
  rewrite foldl_add3_differences, divisor_max. simpl. do 2 f_equal.
Qed.

Lemma divisor_short_chain n : (n ≤ 1)%Z → divisor n = 1%Z.
Proof. intros Hn. unfold divisor. case_bool_decide; [lia | done]. Qed.

Lemma divisor_positive n : (1 ≤ divisor n)%Z.
Proof. rewrite divisor_max. lia. Qed.

(** *** Chain difference: the query as written *)

(** Line 3 reads [chain_length] in the [WITH] that introduces it. *)
Example line_3_out_of_scope :
  check_scope [] (take 3 average_difference_clauses) =
  Some (UndefinedVariable "chain_length").
Proof. reflexivity. Qed.

(** Line 4 does not list [chain_length], so line 5 cannot read it either. *)
Example line_5_out_of_scope :
  check_scope ["n"; "m"; "values"; "chain_length"; "differences"]
              (drop 3 average_difference_clauses) =
  Some (UndefinedVariable "chain_length").
Proof. reflexivity. Qed.

(** Were the clauses run, the rows of the chain 10 -> 12 -> 9: the values
    listed for a start node leave that node out. *)
Example execute_chain_10_12_9 :
  execute chain_10_12_9 = [(0, 1, Some 3%Z); (0, 2, Some 3%Z); (1, 2, Some 0%Z)].
Proof. by vm_compute. Qed.

(** C5. The chain-difference query on the chain of values 10, 12, 9 (and on
    every other graph) is rejected: [chain_length] is read where it is not in
    scope, so no average is returned.  Its expressions, given the list
    [10, 12, 9] and its length, yield the integer quotient 5 / 2 = 2, and
    the value list built for the first node of that chain is [12, 9]. *)
Theorem average_difference_query_rejected :
  (∀ g, average_difference_query g = inl (UndefinedVariable "chain_length")) ∧
  chain_values chain_10_12_9 0 = [Some 12; Some 9]%Z ∧
  average_difference
    (total_difference (differences [Some 10; Some 12; Some 9]%Z 3)) 3 = Some 2%Z.
Proof. split_and!; [by intros g | by vm_compute | by vm_compute]. Qed.

(** C6. On a store holding one node and no relationship the query returns
    no average: it is rejected for the out-of-scope [chain_length], and its
    clauses, if run, produce no row because the pattern needs at least one
    relationship.  The divisor expression itself is 1 for lengths 0 and 1. *)
Theorem single_node_chain_no_result :
  average_difference_query single_node = inl (UndefinedVariable "chain_length") ∧
  execute single_node = [] ∧
  divisor 0 = 1%Z ∧ divisor 1 = 1%Z.
Proof. split_and!; reflexivity. Qed.

End AnalyzerFacts.

(** ** Batched Mutation Executor *)

Module ExecutorFacts.
Import BatchedExecutor.

Section Iterate.
Context {St Ent : Type}.
Variable select : St → list Ent.
Variable action : Ent → St → St.
Variable b : nat.
Hypothesis b_pos : 0 < b.

Lemma run_batches_concat fuel pending s :
  length pending ≤ fuel →
  concat (run_batches action fuel b pending s).1 = pending.
Proof.
  revert pending s. induction fuel as [|fuel IH]; intros pending s Hlen.
  - destruct pending; [done | simpl in Hlen; lia].
  - destruct pending as [|x pending]; [done|].
    cbn [run_batches fst concat]. rewrite IH.
    + apply take_drop.
    + rewrite length_drop. simpl in *. lia.
Qed.

Lemma run_batches_bounded fuel pending s :
  Forall (λ batch, 0 < length batch ≤ b) (run_batches action fuel b pending s).1.
Proof.
  revert pending s. induction fuel as [|fuel IH]; intros pending s.
  - destruct pending; constructor.
  - destruct pending as [|x pending]; [constructor|].
    cbn [run_batches fst]. constructor; [|apply IH].
    rewrite length_take. simpl. lia.
Qed.

Lemma run_batches_sizes fuel pending s :
  length <$> (run_batches action fuel b pending s).1 =
  batch_sizes fuel b (length pending).
Proof.
  revert pending s. induction fuel as [|fuel IH]; intros pending s.
  - by destruct pending.
  - destruct pending as [|x pending]; [done|].
    cbn [run_batches fst fmap list_fmap]. rewrite IH, length_take, length_drop.
    done.
Qed.

Lemma run_batches_store fuel pending s :
  length pending ≤ fuel →
  (run_batches action fuel b pending s).2 = foldl (flip action) s pending.
Proof.
  revert pending s. induction fuel as [|fuel IH]; intros pending s Hlen.
  - destruct pending; [done | simpl in Hlen; lia].
  - destruct pending as [|x pending]; [done|].
    cbn [run_batches snd]. rewrite IH.
    + rewrite <- foldl_app. by rewrite take_drop.
    + rewrite length_drop. simpl in *. lia.
Qed.

Lemma run_batches_sequential fuel pending s :
  (run_batches action fuel b pending s).2 =
  foldl (λ s batch, foldl (flip action) s batch) s
        (run_batches action fuel b pending s).1.
Proof.
  revert pending s. induction fuel as [|fuel IH]; intros pending s.
  - by destruct pending.
  - destruct pending as [|x pending]; [done|].
    cbn [run_batches fst snd]. by rewrite IH.
Qed.

End Iterate.

Lemma div_ceil_step n b : 0 < b → 0 < n → div_ceil n b = S (div_ceil (n - b) b).
Proof.
  intros Hb Hn. unfold div_ceil.
  destruct (decide (b ≤ n)).
  - replace (n + b - 1) with (1 * b + (n - b + b - 1)) by lia.
    by rewrite Nat.div_add_l by lia.
  - replace (n - b) with 0 by lia. simpl.
    replace (n + b - 1) with (1 * b + (n - 1)) by lia.
    rewrite Nat.div_add_l by lia.
    rewrite !Nat.div_small by lia. done.
Qed.

Lemma length_batch_sizes fuel b n :
  0 < b → n ≤ fuel → length (batch_sizes fuel b n) = div_ceil n b.
Proof.
  intros Hb. revert n. induction fuel as [|fuel IH]; intros n Hn.
  - replace n with 0 by lia. simpl. unfold div_ceil.
    by rewrite Nat.div_small by lia.
  - destruct n as [|n].
    + simpl. unfold div_ceil. by rewrite Nat.div_small by lia.
    + cbn [batch_sizes length]. rewrite IH by lia.
      by rewrite (div_ceil_step (S n) b) by lia.
Qed.

Lemma nodes_foldl_DETACH_DELETE l s :
  nodes (foldl (flip DETACH_DELETE) s l) = nodes s ∖ list_to_set l.
Proof.
  revert s. induction l as [|x l IH]; intros s; simpl.
  - by rewrite difference_empty_L.
  - rewrite IH. simpl. by rewrite difference_difference_l_L.
Qed.

(** C10. The call of [src/ahh.cy], for any positive batch size [b], over the
    [n] nodes the selection returns: the deletion runs in [ceil(n / b)]
    batches, each of at least one and at most [b] nodes; the batches laid end
    to end are the selection, so no node is deleted twice; the store results
    from applying the batches one after the other, and no node is left.  With
    1237 nodes and [b = 500] the batches have sizes 500, 500, 237. *)
Theorem iterate_batches (b : nat) (s : store) :
  0 < b →
  let n := length (match_all s) in
  let r := iterate match_all DETACH_DELETE b s in
  length r.1 = div_ceil n b ∧
  Forall (λ batch, 0 < length batch ≤ b) r.1 ∧
  concat r.1 = match_all s ∧
  NoDup (concat r.1) ∧
  r.2 = foldl (λ s batch, foldl (flip DETACH_DELETE) s batch) s r.1 ∧
  match_all r.2 = [] ∧
  (b = 500 → n = 1237 → length <$> r.1 = [500; 500; 237]).
Proof.
  intros Hb n r. subst n r. unfold iterate.
  assert (concat (run_batches DETACH_DELETE (length (match_all s)) b
                    (match_all s) s).1 = match_all s) as Hcat.
  { by apply run_batches_concat. }
  split_and!.
  - rewrite <- (length_fmap length), run_batches_sizes.
    by apply length_batch_sizes.
  - by apply run_batches_bounded.
  - done.
  - rewrite Hcat. unfold match_all. apply NoDup_elements.
  - apply run_batches_sequential.
  - rewrite run_batches_store by done. unfold match_all.
    rewrite nodes_foldl_DETACH_DELETE.
    rewrite list_to_set_elements_L, difference_diag_L.
    apply (elements_empty (C := gset nat)).
  - intros -> Hn. rewrite run_batches_sizes, Hn. by vm_compute.
Qed.

Lemma iterate_batches_witness :
  0 < 2 ∧ length (iterate match_all DETACH_DELETE 2 small_store).1 = 3.
Proof.
  split; [lia|].
  pose proof (iterate_batches 2 small_store ltac:(lia)) as H.
  simpl in H. destruct H as (H & _). rewrite H. by vm_compute.
Defined.

End ExecutorFacts.

(** ** Version Manager *)

Module VersionFacts.
Import Graph VersionManager.

(** *** Each clause in closed form *)

Section NodeFold.
Variable f : node → node.
Hypothesis f_idem : ∀ n, f (f n) = f n.

Lemma rels_update_nodes rows g :
  rels (foldl (λ g c, update_node f c g) g rows) = rels g.
Proof. revert g. induction rows as [|c rows IH]; intros g; simpl; [done|]. by rewrite IH. Qed.

Lemma length_update_nodes rows g :
  length (nodes (foldl (λ g c, update_node f c g) g rows)) = length (nodes g).
Proof.
  revert g. induction rows as [|c rows IH]; intros g; simpl; [done|].
  rewrite IH. simpl. apply length_alter.
Qed.

Lemma lookup_update_nodes rows g i :
  nodes (foldl (λ g c, update_node f c g) g rows) !! i =
  (if decide (i ∈ rows) then f else id) <$> nodes g !! i.
Proof.
  revert g. induction rows as [|c rows IH]; intros g; simpl.
  - by destruct (nodes g !! i).
  - rewrite IH. cbn [update_node nodes]. rewrite list_lookup_alter.
    destruct (decide (c = i)) as [->|Hne].
    + rewrite (decide_True (P := i ∈ i :: rows)) by apply list_elem_of_here.
      destruct (nodes g !! i); simpl; [|by case_decide].
      case_decide; simpl; by rewrite ?f_idem.
    + destruct (decide (i ∈ rows)) as [Hin|Hnin].
      * by rewrite decide_True by by apply list_elem_of_further.
      * rewrite decide_False; [done|].
        intros [?|?]%elem_of_cons; by subst.
Qed.

End NodeFold.

Lemma rels_retired rows g :
  rels (SET_Historical rows (REMOVE_Current rows g)) = rels g.
Proof. unfold SET_Historical, REMOVE_Current. by rewrite !rels_update_nodes. Qed.

Lemma length_retired rows g :
  length (nodes (SET_Historical rows (REMOVE_Current rows g))) = length (nodes g).
Proof. unfold SET_Historical, REMOVE_Current. by rewrite !length_update_nodes. Qed.

Lemma lookup_retired rows g i :
  nodes (SET_Historical rows (REMOVE_Current rows g)) !! i =
  (if decide (i ∈ rows) then retire else id) <$> nodes g !! i.
Proof.
  unfold SET_Historical, REMOVE_Current.
  rewrite !lookup_update_nodes.
  - unfold retire. destruct (nodes g !! i); simpl; [|done]. by case_decide.
  - intros [ls ps]. unfold remove_label. simpl. f_equal.
    by rewrite difference_difference_l_L, union_idemp_L.
  - intros [ls ps]. unfold add_label. simpl. f_equal.
    by rewrite <- (assoc_L (∪)), union_idemp_L.
Qed.

Lemma CREATE_newNode_closed p now rows g :
  CREATE_newNode p now rows g =
  (zip_with Row2 rows (seq (length (nodes g)) (length rows)),
   {| nodes := nodes g ++ replicate (length rows) (new_version p now);
      rels := rels g |}).
Proof.
  revert g. induction rows as [|c rows IH]; intros g; simpl.
  - rewrite app_nil_r. by destruct g.
  - rewrite IH. simpl. rewrite length_app, <- app_assoc. simpl.
    by rewrite Nat.add_1_r.
Qed.

Lemma CREATE_PREVIOUS_VERSION_closed now rows g :
  CREATE_PREVIOUS_VERSION now rows g =
  {| nodes := nodes g; rels := rels g ++ (previous_version now <$> rows) |}.
Proof.
  unfold CREATE_PREVIOUS_VERSION.
  revert g. induction rows as [|r rows IH]; intros g; simpl.
  - rewrite app_nil_r. by destruct g.
  - rewrite IH. simpl. by rewrite <- app_assoc.
Qed.

Lemma FOREACH_clone_closed now rows g :
  FOREACH_clone now rows g =
  {| nodes := nodes g; rels := rels g ++ (clone now <$> filter cloned rows) |}.
Proof.
  unfold FOREACH_clone.
  revert g. induction rows as [|r rows IH]; intros g; simpl.
  - rewrite app_nil_r. by destruct g.
  - rewrite IH, filter_cons. unfold cloned at 2.
    case_bool_decide; simpl.
    + rewrite decide_True by done. simpl. by rewrite <- app_assoc.
    + by rewrite decide_False by done.
Qed.

Lemma filter_none {A} (P : A → Prop) `{∀ x, Decision (P x)} l :
  Forall (λ x, ¬ P x) l → filter P l = [].
Proof.
  induction 1 as [|x l Hx _ IH]; [done|]. by rewrite filter_cons_False.
Qed.

Lemma MATCH_outgoing_previous_version now rows rows' g g' :
  rels g' = rels g ++ (previous_version now <$> rows') →
  MATCH_outgoing rows g' = MATCH_outgoing rows g.
Proof.
  unfold MATCH_outgoing. intros ->.
  induction rows as [|r rows IH]; [done|].
  csimpl. rewrite IH. f_equal. f_equal.
  rewrite filter_app, (filter_none _ (_ <$> _)); [by rewrite app_nil_r|].
  apply Forall_fmap, Forall_forall. intros r' _ [_ Ht]. by apply Ht.
Qed.

(** The query in closed form: the matched nodes are retired, one new node
    per matched node is appended, then the version relationships, then the
    clones. *)
Lemma update_closed p now g :
  let cs := MATCH_current p g in
  let rows2 := zip_with Row2 cs (seq (length (nodes g)) (length cs)) in
  let rows3 := MATCH_outgoing rows2 g in
  update p now g =
  (newNode ∘ row <$> rows3,
   {| nodes := nodes (SET_Historical cs (REMOVE_Current cs g)) ++
               replicate (length cs) (new_version p now);
      rels := rels g ++ (previous_version now <$> rows2) ++
              (clone now <$> filter cloned rows3) |}).
Proof.
  intros cs rows2 rows3. unfold update. fold cs.
  rewrite CREATE_newNode_closed. cbn [fst snd].
  rewrite length_retired, rels_retired. fold rows2.
  rewrite CREATE_PREVIOUS_VERSION_closed. cbn [nodes rels].
  rewrite FOREACH_clone_closed. cbn [nodes rels].
  rewrite (MATCH_outgoing_previous_version now rows2 rows2 g) by done.
  fold rows3. by rewrite <- app_assoc.
Qed.

(** *** Which nodes the query matches *)

Lemma is_current_of_spec p n :
  is_current_of p n = true ↔
  "Node" ∈ labels n ∧ "Current" ∈ labels n ∧
  ∃ k, properties n !! "id" = Some k ∧ nodeId p = Some k.
Proof.
  unfold is_current_of.
  rewrite !andb_true_iff, !bool_decide_eq_true, holds_eq3.
  split; [by intros [[? ?] ?] | by intros (? & ? & ?)].
Qed.

Lemma changed_spec p n : holds (changed p n) = true ↔ differs p n.
Proof.
  unfold changed, differs. by rewrite holds_or, orb_true_iff, !holds_neq3.
Qed.

(** When the stored and the incoming name and email are all present, the
    comparison is plain inequality of one of the two fields. *)
Lemma differs_present p n x y x' y' :
  properties n !! "name" = Some x → properties n !! "email" = Some y →
  newName p = Some x' → newEmail p = Some y' →
  differs p n ↔ x ≠ x' ∨ y ≠ y'.
Proof.
  intros Hx Hy Hx' Hy'. unfold differs. rewrite Hx, Hy, Hx', Hy'. split.
  - intros [(a & b & Ha & Hb & Hne) | (a & b & Ha & Hb & Hne)];
      injection Ha as <-; injection Hb as <-; auto.
  - intros [Hne | Hne]; [left | right]; eauto.
Qed.

Lemma changed_same p n :
  properties n !! "name" = newName p → properties n !! "email" = newEmail p →
  holds (changed p n) = false.
Proof.
  intros Hn He. apply not_true_is_false. rewrite changed_spec.
  intros [(x & y & Hx & Hy & Hne) | (x & y & Hx & Hy & Hne)]; congruence.
Qed.

Lemma elem_of_MATCH_current p g c :
  c ∈ MATCH_current p g ↔
  ∃ n, nodes g !! c = Some n ∧ is_current_of p n = true ∧ differs p n.
Proof.
  unfold MATCH_current, range0, selected.
  rewrite list_elem_of_filter, elem_of_seq. split.
  - intros [Hsel _]. destruct (nodes g !! c) as [n|]; [|done].
    apply andb_true_iff in Hsel as [? ?%changed_spec]. by exists n.
  - intros (n & Hn & Hc & Hd). rewrite Hn, Hc. simpl.
    split; [by apply changed_spec|]. apply lookup_lt_Some in Hn. lia.
Qed.

Lemma MATCH_current_nil p g :
  (∀ c n, nodes g !! c = Some n → is_current_of p n = true →
          holds (changed p n) = false) →
  MATCH_current p g = [].
Proof.
  intros H. unfold MATCH_current. apply filter_none, Forall_forall.
  intros c _. unfold selected.
  destruct (nodes g !! c) as [n|] eqn:Hn; [|done].
  destruct (is_current_of p n) eqn:Hc; [|done].
  by rewrite (H c n Hn Hc).
Qed.

Lemma update_no_match p now g : MATCH_current p g = [] → update p now g = ([], g).
Proof. unfold update. by intros ->. Qed.

(** *** The retired and the new version *)

Lemma retire_not_Current n : ¬ is_Current (retire n).
Proof.
  unfold is_Current, retire, add_label, remove_label. simpl.
  intros [H|H]%elem_of_union.
  - apply elem_of_difference in H as [_ H]. apply H. by apply elem_of_singleton.
  - by apply elem_of_singleton in H.
Qed.

Lemma retire_Historical n : is_Historical (retire n).
Proof.
  unfold is_Historical, retire, add_label. simpl.
  by apply elem_of_union_r, elem_of_singleton.
Qed.

Lemma new_version_Current p now : is_Current (new_version p now).
Proof.
  unfold is_Current, new_version. simpl.
  by apply elem_of_union_r, elem_of_singleton.
Qed.

Lemma lookup_set_prop k v (m : gmap string value) k' :
  set_prop k v m !! k' = if decide (k = k') then v else m !! k'.
Proof.
  unfold set_prop. destruct v; case_decide; subst;
    by rewrite ?lookup_insert_eq, ?lookup_insert_ne, ?lookup_delete_eq,
               ?lookup_delete_ne by done.
Qed.

Lemma new_version_name p now : properties (new_version p now) !! "name" = newName p.
Proof. unfold new_version. cbn [properties]. by rewrite !lookup_set_prop. Qed.

Lemma new_version_email p now : properties (new_version p now) !! "email" = newEmail p.
Proof. unfold new_version. cbn [properties]. by rewrite !lookup_set_prop. Qed.

(** The node of line 14 carries no [id]. *)
Lemma new_version_id p now : properties (new_version p now) !! "id" = None.
Proof. unfold new_version. cbn [properties]. by rewrite !lookup_set_prop. Qed.

Lemma new_version_not_matched p p' now :
  is_current_of p' (new_version p now) = false.
Proof.
  apply not_true_is_false. rewrite is_current_of_spec, new_version_id.
  by intros (_ & _ & k & ? & _).
Qed.

(** *** The nodes after the update *)

Lemma length_nodes_update p now g :
  length (nodes (update p now g).2) =
  length (nodes g) + length (MATCH_current p g).
Proof.
  rewrite update_closed. cbn [snd nodes].
  by rewrite length_app, length_retired, length_replicate.
Qed.

Lemma lookup_update_old p now g i :
  i < length (nodes g) →
  nodes (update p now g).2 !! i =
  (if decide (i ∈ MATCH_current p g) then retire else id) <$> nodes g !! i.
Proof.
  intros Hi. rewrite update_closed. cbn [snd nodes].
  rewrite lookup_app_l by (by rewrite length_retired).
  apply lookup_retired.
Qed.

Lemma lookup_update_new p now g k :
  k < length (MATCH_current p g) →
  nodes (update p now g).2 !! (length (nodes g) + k) = Some (new_version p now).
Proof.
  intros Hk. rewrite update_closed. cbn [snd nodes].
  rewrite lookup_app_r by (rewrite length_retired; lia).
  rewrite length_retired. replace (length (nodes g) + k - length (nodes g)) with k by lia.
  by apply lookup_replicate_2.
Qed.

Lemma lookup_update_cases p now g i n :
  nodes (update p now g).2 !! i = Some n →
  (i ∈ MATCH_current p g ∧ (∃ old, nodes g !! i = Some old ∧ n = retire old)) ∨
  ((i ∉ MATCH_current p g) ∧ nodes g !! i = Some n) ∨
  (length (nodes g) ≤ i ∧ n = new_version p now).
Proof.
  intros Hi. destruct (decide (i < length (nodes g))) as [Hlt|Hge].
  - rewrite lookup_update_old in Hi by done.
    destruct (nodes g !! i) as [old|]; [|done]. simpl in Hi.
    case_decide; injection Hi as <-; [left | right; left]; eauto.
  - right; right. split; [lia|].
    rewrite update_closed in Hi. cbn [snd nodes] in Hi.
    rewrite lookup_app_r in Hi by (rewrite length_retired; lia).
    by apply lookup_replicate in Hi as [-> _].
Qed.

(** *** The relationships after the update *)

Lemma rels_update p now g :
  let rows2 := zip_with Row2 (MATCH_current p g)
                 (seq (length (nodes g)) (length (MATCH_current p g))) in
  rels (update p now g).2 =
  rels g ++ (previous_version now <$> rows2) ++
  (clone now <$> filter cloned (MATCH_outgoing rows2 g)).
Proof. cbn zeta. by rewrite update_closed. Qed.

Lemma lookup_rows2 (cs : list nat) n k c :
  cs !! k = Some c →
  zip_with Row2 cs (seq n (length cs)) !! k = Some (Row2 c (n + k)).
Proof.
  intros Hk. rewrite lookup_zip_with, Hk. simpl.
  rewrite lookup_seq_lt by by eapply lookup_lt_Some. done.
Qed.

Lemma rows2_fresh (cs : list nat) n :
  Forall (λ r, n ≤ newNode r) (zip_with Row2 cs (seq n (length cs))).
Proof.
  revert n. induction cs as [|c cs IH]; intros n; simpl; constructor.
  - simpl. lia.
  - eapply Forall_impl; [apply IH|]. simpl. intros r Hr. lia.
Qed.

Lemma previous_version_unique now (cs : list nat) n k c :
  cs !! k = Some c →
  filter (λ e, start_node e = n + k ∧ end_node e = c ∧
               rel_type e = "PREVIOUS_VERSION")
         (previous_version now <$> zip_with Row2 cs (seq n (length cs))) =
  [previous_version now (Row2 c (n + k))].
Proof.
  revert n k. induction cs as [|c0 cs IH]; intros n k Hk; [done|].
  destruct k as [|k]; simpl in Hk |- *.
  - injection Hk as ->. rewrite Nat.add_0_r.
    rewrite filter_cons_True by done. f_equal.
    apply filter_none, Forall_fmap.
    eapply Forall_impl; [apply (rows2_fresh cs (S n))|].
    simpl. intros r Hr [Hs _]. lia.
  - rewrite filter_cons_False by (simpl; lia).
    rewrite <- Nat.add_succ_comm. by apply IH.
Qed.

Lemma clone_type now r : rel_type (clone now r) = "RELTYPE".
Proof. done. Qed.

(** No relationship of the store starts at a node the update creates. *)
Lemma wf_no_start g i :
  wf g → length (nodes g) ≤ i → filter (λ e, start_node e = i) (rels g) = [].
Proof.
  intros Hwf Hi. apply filter_none. eapply Forall_impl; [apply Hwf|].
  simpl. intros e [Hs _]. lia.
Qed.

Lemma previous_version_count p now g k c :
  wf g → MATCH_current p g !! k = Some c →
  rels_between "PREVIOUS_VERSION" (length (nodes g) + k) c (update p now g).2 =
  [previous_version now (Row2 c (length (nodes g) + k))].
Proof.
  intros Hwf Hk. unfold rels_between. rewrite rels_update. cbn zeta.
  rewrite !filter_app, (previous_version_unique now _ _ k c Hk).
  rewrite (filter_none _ (rels g)), (filter_none _ (clone now <$> _)); [done| |].
  - apply Forall_fmap, Forall_forall. intros r _. simpl. by intros (_ & _ & ?).
  - eapply Forall_impl; [apply Hwf|]. simpl. intros e [Hs _] [? _]. lia.
Qed.

(** The branch step.  Take a Current node [old] of the lineage named by
    [$id] for which the comparison of line 6 is true (some compared field
    present on both sides with different values).  After the update [old] is still at its
    place with the Current label removed and the Historical label added,
    its properties untouched; a node that did not exist before holds the
    labels Node and Current and the incoming name and email; and exactly one
    PREVIOUS_VERSION relationship leads from that new node to [old]. *)
Theorem update_branches p now g c old :
  wf g →
  nodes g !! c = Some old →
  "Node" ∈ labels old → "Current" ∈ labels old →
  (∃ k, properties old !! "id" = Some k ∧ nodeId p = Some k) →
  differs p old →
  let g' := (update p now g).2 in
  ∃ new old' fresh,
    length (nodes g) ≤ new ∧
    nodes g' !! c = Some old' ∧
    labels old' = labels old ∖ {["Current"]} ∪ {["Historical"]} ∧
    ¬ is_Current old' ∧ is_Historical old' ∧
    properties old' = properties old ∧
    nodes g' !! new = Some fresh ∧
    labels fresh = {["Node"; "Current"]} ∧ is_Current fresh ∧
    properties fresh !! "name" = newName p ∧
    properties fresh !! "email" = newEmail p ∧
    properties fresh !! "createdAt" = Some (VInt now) ∧
    length (rels_between "PREVIOUS_VERSION" new c g') = 1.
Proof.
  intros Hwf Hc HN HC Hid Hd g'. subst g'.
  assert (c ∈ MATCH_current p g) as Hin.
  { apply elem_of_MATCH_current. exists old. split_and!; [done| |done].
    by apply is_current_of_spec. }
  destruct (proj1 (list_elem_of_lookup _ _) Hin) as [k Hk].
  exists (length (nodes g) + k), (retire old), (new_version p now).
  split_and!.
  - lia.
  - rewrite lookup_update_old by by eapply lookup_lt_Some.
    rewrite Hc. simpl. by rewrite decide_True.
  - done.
  - apply retire_not_Current.
  - apply retire_Historical.
  - done.
  - apply lookup_update_new. by eapply lookup_lt_Some.
  - done.
  - apply new_version_Current.
  - apply new_version_name.
  - apply new_version_email.
  - unfold new_version. cbn [properties]. by rewrite !lookup_set_prop.
  - by rewrite (previous_version_count p now g k c).
Qed.

Ltac by_computation := apply (bool_decide_unpack _); by vm_compute.

Lemma update_branches_witness :
  let p := upd "m1" "bob" "ann@x" in
  let old := person ["Node"; "Current"] (Some "m1") "ann" "ann@x" in
  wf g_m1 ∧ nodes g_m1 !! 0 = Some old ∧ differs p old ∧
  ∃ new, length (nodes g_m1) ≤ new ∧
         length (rels_between "PREVIOUS_VERSION" new 0 (update p 100 g_m1).2) = 1.
Proof.
  intros p old.
  assert (wf g_m1) as Hwf by (repeat constructor; simpl; lia).
  assert (differs p old) as Hd.
  { left. exists (VStr "ann"), (VStr "bob"). split_and!; [by vm_compute | done | done]. }
  split_and!; [done | reflexivity | done |].
  destruct (update_branches p 100 g_m1 0 old Hwf) as (new & old' & fresh & H);
    [reflexivity | by_computation | by_computation | | done |].
  { exists (VStr "m1"). split; [by vm_compute | done]. }
  exists new. destruct H as (Hfresh & _ & _ & _ & _ & _ & _ & _ & _ & _ & _ & _ & Hpv).
  by split.
Defined.

(** *** A field that appears or disappears is no change for line 6 *)

(** The comparison of line 6 is true only for a field present on both
    sides: a node none of whose compared fields is present on both sides
    with different values is not matched and stays as it is, whatever else
    differs. *)
Lemma update_skips_incomparable p now g c old :
  nodes g !! c = Some old → ¬ differs p old →
  (c ∉ MATCH_current p g) ∧ nodes (update p now g).2 !! c = Some old.
Proof.
  intros Hc Hnd.
  assert (Hnin : c ∉ MATCH_current p g).
  { intros (n & Hn & _ & Hd)%elem_of_MATCH_current.
    rewrite Hc in Hn. by injection Hn as <-. }
  split; [done|].
  rewrite lookup_update_old by (by eapply lookup_lt_Some).
  rewrite decide_False by done. by rewrite Hc.
Qed.

(** C2. The stored Current entity of lineage [m1] has a name and no email;
    the incoming record has the same name and brings an email.  The
    properties differ, but line 6 compares the absent email with [<>], which
    gives null, and the [WHERE] drops the row: the update returns nothing
    and leaves the store as it is, the entity still Current, no new entity
    and no [PREVIOUS_VERSION] relationship.  The same happens when the
    stored entity has an email and the incoming record has none. *)
Theorem update_misses_absent_field :
  let p := upd "m1" "ann" "ann@x" in
  let q := Params (Some (VStr "m1")) (Some (VStr "ann")) None in
  (∃ old, nodes g_no_email !! 0 = Some old ∧
          is_current_of p old = true ∧
          properties old !! "name" = newName p ∧
          properties old !! "email" = None ∧
          newEmail p = Some (VStr "ann@x") ∧
          changed p old = None) ∧
  current_count (VStr "m1") g_no_email = 1 ∧
  update p 100 g_no_email = ([], g_no_email) ∧
  (∃ old, nodes g_m1 !! 0 = Some old ∧
          is_current_of q old = true ∧
          properties old !! "email" = Some (VStr "ann@x") ∧
          newEmail q = None) ∧
  update q 100 g_m1 = ([], g_m1).
Proof.
  cbn zeta. split_and!.
  - eexists. split; [reflexivity|]. split_and!; by vm_compute.
  - by vm_compute.
  - by vm_compute.
  - eexists. split; [reflexivity|]. split_and!; by vm_compute.
  - by vm_compute.
Qed.

(** *** No change, no new version *)

Lemma update_twice_no_match p now g :
  MATCH_current p (update p now g).2 = [].
Proof.
  apply MATCH_current_nil. intros c n Hc Hcur.
  apply lookup_update_cases in Hc as [(_ & old & _ & ->) | [(Hnin & Hc) | (_ & ->)]].
  - apply is_current_of_spec in Hcur as (_ & HC & _). by apply retire_not_Current in HC.
  - apply not_true_is_false. intros Hch%changed_spec. apply Hnin.
    apply elem_of_MATCH_current. by exists n.
  - by rewrite new_version_not_matched in Hcur.
Qed.

(** C3. When every Current node of the lineage named by [$id] already holds
    the incoming name and email, the update returns no row and leaves the
    graph as it was: no node, no label, no relationship changes.  Applied a
    second time with the same parameters the update is always such a no-op,
    so the lineage keeps its size; the lineage [m1] of the sample store has
    one entity before and after two identical updates. *)
Theorem update_unchanged_is_noop p now now' g :
  ((∀ c old, nodes g !! c = Some old →
             "Node" ∈ labels old → "Current" ∈ labels old →
             (∃ k, properties old !! "id" = Some k ∧ nodeId p = Some k) →
             properties old !! "name" = newName p ∧
             properties old !! "email" = newEmail p) →
   update p now g = ([], g)) ∧
  update p now' (update p now g).2 = ([], (update p now g).2) ∧
  (∀ k, lineage_size k (update p now' (update p now g).2).2 =
        lineage_size k (update p now g).2) ∧
  lineage_size (VStr "m1") g_m1 = 1 ∧
  lineage_size (VStr "m1")
    (update (upd "m1" "ann" "ann@x") 101
       (update (upd "m1" "ann" "ann@x") 100 g_m1).2).2 = 1.
Proof.
  assert (update p now' (update p now g).2 = ([], (update p now g).2)) as Hidem.
  { apply update_no_match, update_twice_no_match. }
  split_and!.
  - intros Hsame. apply update_no_match, MATCH_current_nil.
    intros c old Hc (HN & HC & Hid)%is_current_of_spec.
    destruct (Hsame c old Hc HN HC Hid) as [Hn He]. by apply changed_same.
  - done.
  - intros k. by rewrite Hidem.
  - by vm_compute.
  - by vm_compute.
Qed.

Lemma update_unchanged_is_noop_witness :
  let p := upd "m1" "ann" "ann@x" in
  update p 100 g_m1 = ([], g_m1).
Proof.
  intros p. apply (proj1 (update_unchanged_is_noop p 100 100 g_m1)).
  intros c old Hc _ HC _.
  destruct c as [|[|c]]; simpl in Hc; [| |done]; injection Hc as <-.
  - split; by vm_compute.
  - assert (bool_decide ("Current" ∈ labels (person ["Target"] None "t" "t@x"))
            = false) as Hf by (by vm_compute).
    by apply bool_decide_eq_false in Hf.
Defined.

(** A field absent on one side makes the comparison of line 6 null, and a
    null [WHERE] drops the row: no branch, although the incoming record
    brings an email the stored entity lacks. *)
Example update_missing_field_no_branch :
  let g := {| nodes := [{| labels := {["Node"; "Current"]};
                           properties := <["id" := VStr "m1"]>
                                           (<["name" := VStr "ann"]> ∅) |}];
              rels := [] |} in
  update (upd "m1" "ann" "ann@x") 100 g = ([], g).
Proof. by vm_compute. Qed.

(** *** Relationships carried to the new version *)

Lemma elem_of_MATCH_outgoing rows g r :
  r ∈ MATCH_outgoing rows g ↔
  row r ∈ rows ∧ rel r ∈ rels g ∧ start_node (rel r) = current (row r) ∧
  rel_type (rel r) ≠ "PREVIOUS_VERSION".
Proof.
  unfold MATCH_outgoing. rewrite list_elem_of_bind. split.
  - intros (r2 & Hr & Hr2). apply list_elem_of_fmap in Hr as (e & -> & He).
    apply list_elem_of_filter in He as [[? ?] ?]. by simpl.
  - intros (Hrow & Hrel & Hs & Ht). exists (row r). split; [|done].
    apply list_elem_of_fmap. exists (rel r). split; [by destruct r|].
    by apply list_elem_of_filter.
Qed.

Lemma clone_properties now r key :
  key ≠ "from" → key ≠ "to" →
  rel_properties (clone now r) !! key = rel_properties (rel r) !! key.
Proof. intros Hf Ht. simpl. by rewrite !lookup_delete_ne. Qed.

(** The timestamp put on the clone at line 26 does not survive lines 27
    and 28. *)
Lemma clone_from_removed now r :
  rel_properties (clone now r) !! "from" = None ∧
  rel_properties (clone now r) !! "to" = None.
Proof.
  simpl. split; [|by rewrite lookup_delete_eq].
  rewrite lookup_delete_ne by done. by rewrite lookup_delete_eq.
Qed.

Lemma outgoing_update p now g c :
  c < length (nodes g) → outgoing c (update p now g).2 = outgoing c g.
Proof.
  intros Hc. unfold outgoing. rewrite rels_update. cbn zeta.
  rewrite !filter_app.
  rewrite (filter_none _ (previous_version now <$> _)),
          (filter_none _ (clone now <$> _)); [by rewrite !app_nil_r| |].
  - apply Forall_fmap, Forall_forall. intros r Hr. simpl.
    apply list_elem_of_filter in Hr as [_ Hr].
    apply elem_of_MATCH_outgoing in Hr as (Hr & _).
    pose proof (rows2_fresh (MATCH_current p g) (length (nodes g))) as Hall.
    eapply Forall_forall in Hall; [|done]. lia.
  - apply Forall_fmap. eapply Forall_impl; [apply rows2_fresh|].
    simpl. intros r Hr. lia.
Qed.

(** C4, as the code has it.  After a branch of [old] to the new node, every
    outgoing relationship of [old] whose type is [RELTYPE] has a counterpart
    of type [RELTYPE] from the new node to the same target, with every
    property other than [from] and [to] copied from the original; the
    relationships of the store, those leaving [old] among them, are all
    still there, unchanged, and [old] has no other outgoing relationship. *)
Theorem update_clones_RELTYPE p now g c old :
  nodes g !! c = Some old →
  "Node" ∈ labels old → "Current" ∈ labels old →
  (∃ k, properties old !! "id" = Some k ∧ nodeId p = Some k) →
  differs p old →
  let g' := (update p now g).2 in
  ∃ new,
    length (nodes g) ≤ new ∧
    nodes g' !! new = Some (new_version p now) ∧
    previous_version now (Row2 c new) ∈ rels g' ∧
    (∀ e, e ∈ rels g → start_node e = c → rel_type e = "RELTYPE" →
          ∃ e', e' ∈ rels g' ∧
                start_node e' = new ∧ end_node e' = end_node e ∧
                rel_type e' = "RELTYPE" ∧
                ∀ key, key ≠ "from" → key ≠ "to" →
                       rel_properties e' !! key = rel_properties e !! key) ∧
    rels g `prefix_of` rels g' ∧
    outgoing c g' = outgoing c g.
Proof.
  intros Hc HN HC Hid Hd g'. subst g'.
  assert (c ∈ MATCH_current p g) as Hin.
  { apply elem_of_MATCH_current. exists old. split_and!; [done| |done].
    by apply is_current_of_spec. }
  destruct (proj1 (list_elem_of_lookup _ _) Hin) as [k Hk].
  pose proof (lookup_rows2 _ (length (nodes g)) _ _ Hk) as Hrow.
  apply list_elem_of_lookup_2 in Hrow.
  exists (length (nodes g) + k). split_and!.
  - lia.
  - apply lookup_update_new. by eapply lookup_lt_Some.
  - rewrite rels_update. cbn zeta.
    apply elem_of_app. right. apply elem_of_app. left.
    by apply list_elem_of_fmap_2.
  - intros e He Hs Ht.
    exists (clone now (Row3 (Row2 c (length (nodes g) + k)) e)).
    split_and!; [|done|done|done|].
    + rewrite rels_update. cbn zeta.
      apply elem_of_app. right. apply elem_of_app. right.
      apply list_elem_of_fmap_2, list_elem_of_filter. split; [done|].
      apply elem_of_MATCH_outgoing. simpl. split_and!; [done|done|done|].
      by rewrite Ht.
    + intros key. apply clone_properties.
  - rewrite rels_update. cbn zeta. by eexists.
  - apply outgoing_update. by eapply lookup_lt_Some.
Qed.

Lemma update_clones_RELTYPE_witness :
  let p := upd "m1" "bob" "ann@x" in
  let old := person ["Node"; "Current"] (Some "m1") "ann" "ann@x" in
  nodes g_m1 !! 0 = Some old ∧ differs p old ∧
  ∃ new, outgoing 0 (update p 100 g_m1).2 = outgoing 0 g_m1 ∧
         previous_version 100 (Row2 0 new) ∈ rels (update p 100 g_m1).2.
Proof.
  intros p old.
  assert (differs p old) as Hd.
  { left. exists (VStr "ann"), (VStr "bob"). split_and!; [by vm_compute | done | done]. }
  split_and!; [reflexivity | done |].
  destruct (update_clones_RELTYPE p 100 g_m1 0 old) as (new & H);
    [reflexivity | by_computation | by_computation | | done |].
  { exists (VStr "m1"). split; [by vm_compute | done]. }
  exists new. destruct H as (_ & _ & Hpv & _ & _ & Hout). by split.
Defined.

(** C4, as stated, fails: in the sample store [old] (node 0) has an outgoing
    [LINKED_TO] relationship to node 1, its type is not [PREVIOUS_VERSION],
    and after the branch the new node (node 2) has no [LINKED_TO]
    relationship to node 1. *)
Lemma LINKED_TO_not_carried_forward :
  let g' := (update (upd "m1" "bob" "ann@x") 100 g_m1).2 in
  Rel 0 1 "LINKED_TO" ∅ ∈ outgoing 0 g_m1 ∧
  nodes g' !! 2 = Some (new_version (upd "m1" "bob" "ann@x") 100) ∧
  rels_between "PREVIOUS_VERSION" 2 0 g' ≠ [] ∧
  rels_between "LINKED_TO" 2 1 g' = [].
Proof.
  cbn zeta. split_and!.
  - by_computation.
  - by vm_compute.
  - by vm_compute.
  - by vm_compute.
Qed.

(** *** Current entities per lineage *)

Lemma filter_length_le {A} (P : A → Prop) `{∀ x, Decision (P x)} (l' l : list A) :
  Forall2 (λ a' a, P a' → P a) l' l →
  length (filter P l') ≤ length (filter P l).
Proof.
  induction 1 as [|a' a l' l Ha _ IH]; [done|].
  rewrite !filter_cons. destruct (decide (P a')) as [Ha'|].
  - rewrite decide_True by auto. simpl. lia.
  - case_decide; simpl; lia.
Qed.

(** An update never adds a Current entity to a lineage. *)
Lemma current_count_update k p now g :
  current_count k (update p now g).2 ≤ current_count k g.
Proof.
  unfold current_count. rewrite update_closed. cbn [snd nodes].
  rewrite filter_app, length_app, (filter_none _ (replicate _ _)).
  - simpl. rewrite Nat.add_0_r. apply filter_length_le.
    apply Forall2_same_length_lookup. split; [apply length_retired|].
    intros i n' n Hn' Hn. rewrite lookup_retired, Hn in Hn'. simpl in Hn'.
    case_decide; injection Hn' as <-; [|done].
    intros [_ HC]. by apply retire_not_Current in HC.
  - apply Forall_replicate. intros [Hl _]. unfold in_lineage in Hl.
    by rewrite new_version_id in Hl.
Qed.

Lemma filter_length_lt {A} (P : A → Prop) `{∀ x, Decision (P x)} (l' l : list A) i a' a :
  Forall2 (λ a' a, P a' → P a) l' l →
  l' !! i = Some a' → l !! i = Some a → ¬ P a' → P a →
  length (filter P l') < length (filter P l).
Proof.
  intros Hall. revert i. induction Hall as [|b' b l' l Hb Hall IH]; intros i Hi' Hi Ha' Ha.
  - done.
  - rewrite !filter_cons. destruct i as [|i]; simpl in Hi', Hi.
    + injection Hi' as ->. injection Hi as ->.
      rewrite decide_False, decide_True by done. simpl.
      pose proof (filter_length_le P l' l Hall). lia.
    + specialize (IH i Hi' Hi Ha' Ha).
      destruct (decide (P b')); [rewrite decide_True by auto | case_decide];
        simpl; lia.
Qed.

(** Every branch takes the Current label out of the lineage it was asked
    to update: the retired node had it, the new node is in no lineage. *)
Lemma current_count_branch k p now g c :
  nodeId p = Some k → c ∈ MATCH_current p g →
  current_count k (update p now g).2 < current_count k g.
Proof.
  intros Hk Hc.
  pose proof Hc as (old & Hold & Hcur & _)%elem_of_MATCH_current.
  apply is_current_of_spec in Hcur as (_ & HC & k' & Hid & Hk').
  assert (k' = k) as -> by congruence.
  unfold current_count. rewrite update_closed. cbn [snd nodes].
  rewrite filter_app, length_app, (filter_none _ (replicate _ _)).
  - simpl. rewrite Nat.add_0_r.
    apply (filter_length_lt _ _ _ c (retire old) old); [| |done| |done].
    + apply Forall2_same_length_lookup. split; [apply length_retired|].
      intros i n' n Hn' Hn. rewrite lookup_retired, Hn in Hn'. simpl in Hn'.
      case_decide; injection Hn' as <-; [|done].
      intros [_ HC']. by apply retire_not_Current in HC'.
    + rewrite lookup_retired, Hold. simpl. by rewrite decide_True.
    + intros [_ HC']. by apply retire_not_Current in HC'.
  - apply Forall_replicate. intros [Hl _]. unfold in_lineage in Hl.
    by rewrite new_version_id in Hl.
Qed.

(** X6. A lineage with exactly one Current entity has none after a branch:
    the retired node loses the label and the new node, created without an
    [id], belongs to no lineage. *)
Lemma branch_leaves_no_Current k p now g c :
  nodeId p = Some k → c ∈ MATCH_current p g → current_count k g = 1 →
  current_count k (update p now g).2 = 0.
Proof.
  intros Hk Hc H1. pose proof (current_count_branch k p now g c Hk Hc). lia.
Qed.

(** X1. Along any change feed, a lineage with at most one Current entity
    keeps at most one. *)
Lemma at_most_one_Current_preserved k feed g :
  current_count k g ≤ 1 → current_count k (updates feed g) ≤ 1.
Proof.
  revert g. induction feed as [|u feed IH]; intros g Hg; [done|].
  change (updates (u :: feed) g) with (updates feed (update u.1 u.2 g).2).
  apply IH. etrans; [apply current_count_update | done].
Qed.

Lemma at_most_one_Current_preserved_witness :
  current_count (VStr "m1") g_m1 ≤ 1 ∧
  current_count (VStr "m1")
    (updates [(upd "m1" "bob" "ann@x", 100%Z); (upd "m1" "cat" "ann@x", 200%Z)] g_m1) ≤ 1.
Proof.
  assert (current_count (VStr "m1") g_m1 ≤ 1) as H by (by vm_compute).
  split; [done|]. by apply at_most_one_Current_preserved.
Defined.

(** C1. The sample store holds the lineage [m1] with exactly one Current
    entity.  One update that changes the name leaves that lineage with one
    entity and no Current one: the node created at line 14 carries no [id],
    so it is outside every lineage, and a further update of [m1] finds
    nothing to match and is lost. *)
Theorem lineage_loses_its_Current :
  let g1 := (update (upd "m1" "bob" "ann@x") 100 g_m1).2 in
  current_count (VStr "m1") g_m1 = 1 ∧
  current_count (VStr "m1") g1 = 0 ∧
  lineage_size (VStr "m1") g1 = 1 ∧
  properties (new_version (upd "m1" "bob" "ann@x") 100) !! "id" = None ∧
  update (upd "m1" "cat" "ann@x") 200 g1 = ([], g1).
Proof. cbn zeta. split_and!; by vm_compute. Qed.

(** *** What an update leaves alone, what it adds *)

Lemma rows2_bounds (cs : list nat) n r :
  r ∈ zip_with Row2 cs (seq n (length cs)) →
  current r ∈ cs ∧ n ≤ newNode r < n + length cs.
Proof.
  intros (k & Hk)%list_elem_of_lookup.
  apply lookup_zip_with_Some in Hk as (c & i & -> & Hc & Hi).
  apply lookup_seq in Hi as [-> Hlt]. simpl.
  split; [by eapply list_elem_of_lookup_2 | lia].
Qed.

Lemma MATCH_current_lt p g c : c ∈ MATCH_current p g → c < length (nodes g).
Proof.
  intros (old & Hold & _)%elem_of_MATCH_current. by eapply lookup_lt_Some.
Qed.

(** X3. Relationships keep joining existing nodes: a well-formed graph
    stays well-formed through the update. *)
Theorem update_preserves_wf p now g : wf g → wf (update p now g).2.
Proof.
  intros Hwf. unfold wf. rewrite rels_update, length_nodes_update. cbn zeta.
  set (cs := MATCH_current p g). set (n := length (nodes g)).
  rewrite !Forall_app. split_and!.
  - eapply Forall_impl; [apply Hwf|]. simpl. fold n. lia.
  - apply Forall_fmap, Forall_forall. intros r [Hc Hn]%rows2_bounds. simpl.
    apply MATCH_current_lt in Hc. fold n in Hc. lia.
  - apply Forall_fmap, Forall_forall. intros r [_ Hr]%list_elem_of_filter.
    apply elem_of_MATCH_outgoing in Hr as (Hrow & Hrel & _).
    apply rows2_bounds in Hrow as [_ Hn]. simpl. unfold other.
    eapply Forall_forall in Hwf; [|done]. fold n in Hwf. lia.
Qed.

Lemma update_preserves_wf_witness : wf g_m1 ∧ wf (update (upd "m1" "bob" "ann@x") 100 g_m1).2.
Proof.
  assert (wf g_m1) as Hwf by (repeat constructor; simpl; lia).
  split; [done|]. by apply update_preserves_wf.
Defined.

(** X4. The update deletes no node and rewrites no property of an existing
    node; a node that is not a Current node of the lineage named by [$id]
    keeps its labels as well, so history and other lineages are untouched. *)
Theorem update_leaves_other_nodes p now g i old :
  nodes g !! i = Some old →
  (∃ old', nodes (update p now g).2 !! i = Some old' ∧
           properties old' = properties old ∧
           ∀ l, l ≠ "Current" → l ≠ "Historical" → l ∈ labels old' ↔ l ∈ labels old) ∧
  (¬ ("Node" ∈ labels old ∧ "Current" ∈ labels old ∧
      ∃ k, properties old !! "id" = Some k ∧ nodeId p = Some k) →
   nodes (update p now g).2 !! i = Some old).
Proof.
  intros Hold. pose proof (lookup_lt_Some _ _ _ Hold) as Hi.
  rewrite lookup_update_old, Hold by done. simpl. split.
  - case_decide; [|by exists old].
    exists (retire old). split_and!; [done|done|].
    intros l HC HH. unfold retire, add_label, remove_label. simpl.
    rewrite elem_of_union, elem_of_difference, !elem_of_singleton.
    split; [by intros [[? _]|?] | by left].
  - intros Hnot. rewrite decide_False; [done|].
    intros (old' & Hold' & Hcur & _)%elem_of_MATCH_current.
    apply Hnot. apply is_current_of_spec. congruence.
Qed.

Lemma update_leaves_other_nodes_witness :
  let p := upd "m1" "bob" "ann@x" in
  nodes g_m1 !! 1 = Some (person ["Target"] None "t" "t@x") ∧
  nodes (update p 100 g_m1).2 !! 1 = Some (person ["Target"] None "t" "t@x").
Proof.
  intros p. split; [reflexivity|].
  apply (update_leaves_other_nodes p 100 g_m1 1); [reflexivity|].
  intros (_ & HC & _).
  assert (bool_decide ("Current" ∈ labels (person ["Target"] None "t" "t@x"))
          = false) as Hf by (by vm_compute).
  by apply bool_decide_eq_false in Hf.
Defined.

(** X5. Every relationship of the store survives the update unchanged and
    in place.  Each relationship the update adds starts at a node created by
    this update; it is either a [PREVIOUS_VERSION] to a retired node,
    stamped [from] = now, or a [RELTYPE] relationship that carries neither
    [from] nor [to]. *)
Theorem update_adds_relationships p now g :
  ∃ added,
    rels (update p now g).2 = rels g ++ added ∧
    Forall (λ e,
      length (nodes g) ≤ start_node e ∧
      ((rel_type e = "PREVIOUS_VERSION" ∧ end_node e ∈ MATCH_current p g ∧
        rel_properties e = {["from" := VInt now]}) ∨
       (rel_type e = "RELTYPE" ∧
        rel_properties e !! "from" = None ∧ rel_properties e !! "to" = None)))
      added.
Proof.
  eexists. split; [apply rels_update|]. cbn zeta.
  rewrite Forall_app. split.
  - apply Forall_fmap, Forall_forall. intros r [Hc Hn]%rows2_bounds. simpl.
    split; [lia|]. by left.
  - apply Forall_fmap, Forall_forall. intros r [_ Hr]%list_elem_of_filter.
    apply elem_of_MATCH_outgoing in Hr as (Hrow & _).
    apply rows2_bounds in Hrow as [_ Hn]. split; [simpl; lia|].
    right. split; [done|]. apply clone_from_removed.
Qed.

(** X7. A null [$id] matches no node: the update is a no-op whatever the
    store holds. *)
Theorem update_null_id p now g : nodeId p = None → update p now g = ([], g).
Proof.
  intros Hid. apply update_no_match, MATCH_current_nil.
  intros c n _ (_ & _ & k & _ & Hk)%is_current_of_spec. congruence.
Qed.

Lemma update_null_id_witness :
  update (Params None (Some (VStr "bob")) None) 100 g_m1 = ([], g_m1).
Proof. by apply update_null_id. Defined.

(** X8. The rows of [RETURN newNode] are nodes created by this update, one
    row per outgoing relationship of a matched node other than
    [PREVIOUS_VERSION]: the query returns no row exactly when no such
    relationship exists, also when it has just created new versions. *)
Theorem update_returned_rows p now g :
  (∀ x, x ∈ (update p now g).1 →
        length (nodes g) ≤ x < length (nodes (update p now g).2)) ∧
  ((update p now g).1 = [] ↔
   ∀ e, e ∈ rels g → start_node e ∈ MATCH_current p g →
        rel_type e = "PREVIOUS_VERSION").
Proof.
  rewrite length_nodes_update, update_closed. cbn [fst]. split.
  - intros x (r & -> & Hr)%list_elem_of_fmap.
    apply elem_of_MATCH_outgoing in Hr as (Hrow%rows2_bounds & _). simpl. lia.
  - set (rows2 := zip_with Row2 _ _). split.
    + intros Hnil%fmap_nil_inv e He Hs.
      destruct (decide (rel_type e = "PREVIOUS_VERSION")) as [|Ht]; [done|].
      apply list_elem_of_lookup in Hs as [k Hk].
      pose proof (lookup_rows2 _ (length (nodes g)) _ _ Hk) as Hrow.
      apply list_elem_of_lookup_2 in Hrow.
      assert (Row3 (Row2 (start_node e) (length (nodes g) + k)) e
                ∈ MATCH_outgoing rows2 g) as Hin.
      { by apply elem_of_MATCH_outgoing. }
      rewrite Hnil in Hin. by apply elem_of_nil in Hin.
    + intros Hall. destruct (MATCH_outgoing rows2 g) as [|r rows3] eqn:E; [done|].
      assert (r ∈ MATCH_outgoing rows2 g) as Hr by (rewrite E; left).
      apply elem_of_MATCH_outgoing in Hr as (Hrow%rows2_bounds & Hrel & Hs & Ht).
      destruct Hrow as [Hc _]. rewrite <- Hs in Hc.
      by destruct (Ht (Hall _ Hrel Hc)).
Qed.

(** A branch of a node without outgoing relationships: the graph changes,
    the query reports nothing. *)
Example update_branch_without_row :
  let g := {| nodes := [person ["Node"; "Current"] (Some "m1") "ann" "ann@x"];
              rels := [] |} in
  (update (upd "m1" "bob" "ann@x") 100 g).1 = [] ∧
  length (nodes (update (upd "m1" "bob" "ann@x") 100 g).2) = 2.
Proof. by vm_compute. Qed.

Lemma previous_version_at_most_one now (cs : list nat) n i :
  length (filter (λ e, start_node e = i ∧ rel_type e = "PREVIOUS_VERSION")
            (previous_version now <$> zip_with Row2 cs (seq n (length cs)))) ≤ 1.
Proof.
  revert n. induction cs as [|c cs IH]; intros n; simpl; [lia|].
  rewrite filter_cons. case_decide as Hd; [|apply IH].
  simpl in Hd. destruct Hd as [<- _]. simpl.
  rewrite filter_none; [simpl; lia|].
  apply Forall_fmap. eapply Forall_impl; [apply (rows2_fresh cs (S n))|].
  simpl. intros r Hr [? _]. lia.
Qed.

(** X9. Version chains do not fork backwards: in a well-formed graph where
    every node has at most one outgoing [PREVIOUS_VERSION] relationship, the
    same holds after the update, and each node it creates has at most
    one. *)
Theorem update_one_previous_version p now g :
  wf g →
  (∀ i, length (previous_versions i g) ≤ 1) →
  ∀ i, length (previous_versions i (update p now g).2) ≤ 1.
Proof.
  intros Hwf Hone i. unfold previous_versions. rewrite rels_update. cbn zeta.
  rewrite !filter_app, !length_app.
  rewrite (filter_none _ (clone now <$> _)).
  2:{ apply Forall_fmap, Forall_forall. intros r _ [_ Ht]. done. }
  simpl. rewrite Nat.add_0_r.
  destruct (decide (i < length (nodes g))) as [Hi|Hi].
  - rewrite (filter_none _ (previous_version now <$> _)).
    + simpl. rewrite Nat.add_0_r. apply Hone.
    + apply Forall_fmap. eapply Forall_impl; [apply rows2_fresh|].
      simpl. intros r Hr [? _]. lia.
  - rewrite (filter_none _ (rels g)).
    + apply previous_version_at_most_one.
    + eapply Forall_impl; [apply Hwf|]. simpl. intros e [? _] [? _]. lia.
Qed.

Lemma update_one_previous_version_witness :
  wf g_m1 ∧ (∀ i, length (previous_versions i g_m1) ≤ 1) ∧
  length (previous_versions 2 (update (upd "m1" "bob" "ann@x") 100 g_m1).2) ≤ 1.
Proof.
  assert (wf g_m1) as Hwf by (repeat constructor; simpl; lia).
  assert (∀ i, length (previous_versions i g_m1) ≤ 1) as Hone.
  { intros i. unfold previous_versions. simpl.
    rewrite filter_none; [simpl; lia|].
    repeat constructor; by intros [_ ?]. }
  split_and!; [done|done|]. by apply update_one_previous_version.
Defined.

Lemma branch_leaves_no_Current_witness :
  let p := upd "m1" "bob" "ann@x" in
  nodeId p = Some (VStr "m1") ∧ 0 ∈ MATCH_current p g_m1 ∧
  current_count (VStr "m1") g_m1 = 1 ∧
  current_count (VStr "m1") (update p 100 g_m1).2 = 0.
Proof.
  intros p.
  assert (0 ∈ MATCH_current p g_m1) as Hin by by_computation.
  split_and!; [done | done | by vm_compute |].
  apply (branch_leaves_no_Current (VStr "m1") p 100 g_m1 0); [done|done|by vm_compute].
Defined.

(** *** How far a change feed can grow the store *)

Lemma filter_ext_Forall {A} (P Q : A → Prop) `{∀ x, Decision (P x)} `{∀ x, Decision (Q x)} l :
  Forall (λ x, P x ↔ Q x) l → filter P l = filter Q l.
Proof.
  induction 1 as [|x l Hx _ IH]; [done|].
  rewrite !filter_cons, IH. destruct (decide (P x)) as [HP|HP].
  - by rewrite decide_True by by apply Hx.
  - by rewrite decide_False by by rewrite <- Hx.
Qed.

Lemma length_filter_split {A} (P Q : A → Prop) `{∀ x, Decision (P x)} `{∀ x, Decision (Q x)} l :
  length (filter P l) =
  length (filter (λ x, P x ∧ Q x) l) + length (filter (λ x, P x ∧ ¬ Q x) l).
Proof.
  induction l as [|x l IH]; [done|].
  rewrite !filter_cons.
  destruct (decide (P x)), (decide (Q x)).
  - rewrite decide_True, decide_False by tauto. simpl. lia.
  - rewrite decide_False, decide_True by tauto. simpl. lia.
  - rewrite !decide_False by tauto. done.
  - rewrite !decide_False by tauto. done.
Qed.

Lemma selected_updatable p g i : selected p g i = true → updatable_at g i = true.
Proof.
  unfold selected, updatable_at. destruct (nodes g !! i) as [x|]; [|done].
  intros [(HN & HC & k & Hk & _)%is_current_of_spec _]%andb_true_iff.
  apply bool_decide_eq_true. by split_and!.
Qed.

Lemma updatable_at_old p now g i :
  i < length (nodes g) →
  updatable_at (update p now g).2 i = true ↔
  updatable_at g i = true ∧ ¬ selected p g i = true.
Proof.
  intros Hi. unfold updatable_at at 1. rewrite lookup_update_old by done.
  assert (i ∈ MATCH_current p g ↔ selected p g i = true) as Hsel.
  { unfold MATCH_current, range0. rewrite list_elem_of_filter, elem_of_seq.
    split; [by intros [? _] | intros ?; split; [done | lia]]. }
  unfold updatable_at. destruct (nodes g !! i) as [x|]; simpl; [|by split; [|intros [? _]]].
  case_decide as Hc; rewrite Hsel in Hc.
  - split; [|by intros [_ ?]].
    intros (_ & HC & _)%bool_decide_eq_true. by apply retire_not_Current in HC.
  - split; [by intros ? | by intros [? _]].
Qed.

Lemma updatable_at_new p now g i :
  length (nodes g) ≤ i → ¬ updatable_at (update p now g).2 i = true.
Proof.
  intros Hi. unfold updatable_at.
  destruct (nodes (update p now g).2 !! i) as [x|] eqn:Hx; [|done].
  apply lookup_update_cases in Hx as [(Hin & _) | [(_ & Hx) | (_ & ->)]].
  - apply MATCH_current_lt in Hin. lia.
  - apply lookup_lt_Some in Hx. lia.
  - intros (_ & _ & Hid)%bool_decide_eq_true.
    rewrite new_version_id in Hid. by destruct Hid.
Qed.

(** Every new version is paid for by a node that can no longer be matched. *)
Lemma update_growth p now g :
  length (nodes (update p now g).2) + length (updatable (update p now g).2) =
  length (nodes g) + length (updatable g).
Proof.
  rewrite length_nodes_update. unfold updatable at 1.
  rewrite length_nodes_update. unfold range0. rewrite seq_app, filter_app.
  rewrite (filter_none _ (seq (0 + _) _)).
  2:{ apply Forall_forall. intros i Hi%elem_of_seq. apply updatable_at_new. lia. }
  rewrite app_nil_r.
  rewrite (filter_ext_Forall _ (λ i, updatable_at g i = true ∧ ¬ selected p g i = true)).
  2:{ apply Forall_forall. intros i Hi%elem_of_seq. apply updatable_at_old. lia. }
  unfold updatable, range0.
  rewrite (length_filter_split (λ i, updatable_at g i = true)
             (λ i, selected p g i = true)).
  unfold MATCH_current, range0.
  rewrite (filter_ext_Forall (λ i, selected p g i = true)
             (λ i, updatable_at g i = true ∧ selected p g i = true)).
  2:{ apply Forall_forall. intros i _. split; [|by intros [_ ?]].
      intros Hs. split; [by eapply selected_updatable | done]. }
  lia.
Qed.

(** X18. However long the change feed, the store gains at most one node
    per node that is updatable at the start (labelled Node and Current and
    holding an id): the versions the update creates can never be matched
    again, so every later change to the same entity is lost. *)
Theorem updates_growth_bounded feed g :
  length (nodes (updates feed g)) ≤ length (nodes g) + length (updatable g).
Proof.
  assert (length (nodes (updates feed g)) + length (updatable (updates feed g)) =
          length (nodes g) + length (updatable g)) as H; [|lia].
  revert g. induction feed as [|u feed IH]; intros g; [done|].
  change (updates (u :: feed) g) with (updates feed (update u.1 u.2 g).2).
  by rewrite IH, update_growth.
Qed.

Example update_g_m1 :
  update (upd "m1" "bob" "ann@x") 100 g_m1 =
  ([2; 2],
   {| nodes := [person ["Node"; "Historical"] (Some "m1") "ann" "ann@x";
                person ["Target"] None "t" "t@x";
                new_version (upd "m1" "bob" "ann@x") 100];
      rels := [Rel 0 1 "RELTYPE" (<["from" := VInt 5]> (<["weight" := VInt 7]> ∅));
               Rel 0 1 "LINKED_TO" ∅;
               Rel 2 0 "PREVIOUS_VERSION" {["from" := VInt 100]};
               Rel 2 1 "RELTYPE" (<["weight" := VInt 7]> ∅)] |}).
Proof. by vm_compute. Qed.

End VersionFacts.

(** ** Ingest *)

Module IngestFacts.
Import Graph Ingest.

Example ingest_first_version :
  ingest [CsvRow (Some (VStr "k")) (Some (VInt 1)) None] 100 Graph.empty =
  inr {| nodes := [first_version (CsvRow (Some (VStr "k")) (Some (VInt 1)) None) (VStr "k")];
         rels := [] |}.
Proof. by vm_compute. Qed.

(** With two new keys in the file only one node gets the label and the
    properties: [LIMIT 1] applies to the whole table. *)
Example ingest_two_lines :
  ingest [CsvRow (Some (VStr "k")) (Some (VInt 1)) None;
          CsvRow (Some (VStr "l")) (Some (VInt 2)) None] 100 Graph.empty =
  inr {| nodes := [first_version (CsvRow (Some (VStr "k")) (Some (VInt 1)) None) (VStr "k");
                   {| labels := {["YourLabel"]};
                      properties := {["uniqueProperty" := VStr "l"]} |}];
         rels := [] |}.
Proof. by vm_compute. Qed.

Ltac by_set_membership := apply (bool_decide_unpack _); by vm_compute.

Lemma matching_none u g :
  (∀ i x, nodes g !! i = Some x → ¬ is_YourLabel u x) → matching u g = [].
Proof.
  intros H. unfold matching. apply VersionFacts.filter_none, Forall_forall.
  intros i _. unfold matches. destruct (nodes g !! i) as [x|] eqn:Hx; [|done].
  rewrite bool_decide_eq_false_2; [done|]. by eapply H.
Qed.

Lemma ingest_new_key r u now g :
  wf g → uniqueProperty r = Some u →
  (∀ i x, nodes g !! i = Some x → ¬ is_YourLabel u x) →
  ingest [r] now g =
  inr {| nodes := nodes g ++ [first_version r u]; rels := rels g |}.
Proof.
  intros Hwf Hu Hnew. unfold ingest, MERGE, MERGE_row.
  rewrite Hu, (matching_none u g Hnew). cbn [CREATE_node fst snd app].
  unfold OPTIONAL_MATCH_old. cbn [mbind list_bind n rels].
  rewrite (VersionFacts.filter_none _ (rels g)).
  - cbn. unfold SET_rows, update_node. cbn. f_equal. f_equal.
    rewrite <- (Nat.add_0_r (length (nodes g))) at 2. rewrite alter_app_r. done.
  - eapply Forall_impl; [apply Hwf|]. simpl. intros e [Hs _] [? _]. lia.
Qed.

(** C9, as the code has it.  When no Current entity of the lineage named by
    [$id] exists, the update query changes nothing and returns no row; it has
    no way to fail.  The first version of a lineage comes from the ingest
    query: for a key that no entity holds yet it adds one node with the
    labels [YourLabel] and [CurrentVersion] and the properties of the CSV
    line, and leaves the rest of the store as it was. *)
Theorem absent_lineage p r u now g :
  ((∀ c x k, nodes g !! c = Some x → "Current" ∈ labels x →
             properties x !! "id" = Some k → VersionManager.nodeId p ≠ Some k) →
   VersionManager.update p now g = ([], g)) ∧
  (wf g → uniqueProperty r = Some u →
   (∀ i x, nodes g !! i = Some x → ¬ is_YourLabel u x) →
   ingest [r] now g =
   inr {| nodes := nodes g ++ [first_version r u]; rels := rels g |}).
Proof.
  split; [|apply ingest_new_key].
  intros Hnone. apply VersionFacts.update_no_match, VersionFacts.MATCH_current_nil.
  intros c x Hc (_ & HC & k & Hid & Hk)%VersionFacts.is_current_of_spec.
  by destruct (Hnone c x k Hc HC Hid).
Qed.

Lemma absent_lineage_witness :
  VersionManager.update (VersionManager.upd "m2" "zoe" "zoe@x") 100 VersionManager.g_m1 =
    ([], VersionManager.g_m1) ∧
  ∃ g', ingest [CsvRow (Some (VStr "k")) (Some (VInt 1)) None] 100
               VersionManager.g_m1 = inr g' ∧
        length (nodes g') = 3.
Proof.
  pose proof (absent_lineage (VersionManager.upd "m2" "zoe" "zoe@x")
                (CsvRow (Some (VStr "k")) (Some (VInt 1)) None) (VStr "k")
                100 VersionManager.g_m1) as [Hupd Hing].
  split.
  - apply Hupd. intros c x k Hc _ Hid.
    destruct c as [|[|c]]; simpl in Hc; [| |done]; injection Hc as <-.
    + vm_compute in Hid. injection Hid as <-. done.
    + by vm_compute in Hid.
  - eexists. split.
    + apply Hing; [repeat constructor; simpl; lia | done |].
      intros i x Hi [_ Hx].
      destruct i as [|[|i]]; simpl in Hi; [| |done]; injection Hi as <-;
        by vm_compute in Hx.
    + done.
Defined.

(** C9, as stated, fails: on the empty store the lineage [m1] has no entity,
    and the update query returns no row and leaves the store empty; no entity
    with the Current label and the incoming properties exists afterwards. *)
Lemma update_creates_no_first_version :
  let r := VersionManager.update (VersionManager.upd "m1" "ann" "ann@x") 100 Graph.empty in
  r.1 = [] ∧ nodes r.2 = [] ∧
  ¬ ∃ i x, nodes r.2 !! i = Some x ∧ VersionManager.is_Current x.
Proof.
  cbn zeta. split_and!; [by vm_compute | by vm_compute |].
  intros (i & x & Hi & _). by vm_compute in Hi.
Qed.

(** *** Missing keys *)

Lemma MERGE_row_ok r u g :
  uniqueProperty r = Some u → ∃ rows g', MERGE_row r g = inr (rows, g').
Proof.
  intros Hu. unfold MERGE_row. rewrite Hu.
  destruct (matching u g); eauto.
Qed.

Lemma MERGE_fails csv g :
  (∃ e, MERGE csv g = inl e) ↔ ∃ r, r ∈ csv ∧ uniqueProperty r = None.
Proof.
  revert g. induction csv as [|r csv IH]; intros g; simpl.
  - split; [by intros [? ?] | by intros (? & ?%elem_of_nil & _)].
  - destruct (uniqueProperty r) as [u|] eqn:Hu.
    + destruct (MERGE_row_ok r u g Hu) as (rows & g' & ->).
      specialize (IH g'). split.
      * intros [e He]. destruct (MERGE csv g') as [e'|[rest g'']] eqn:E; [|done].
        destruct (proj1 IH (ex_intro _ e' eq_refl)) as (r' & Hin & Hr').
        exists r'. split; [by right | done].
      * intros (r' & [->|Hin]%elem_of_cons & Hr'); [congruence|].
        destruct (proj2 IH (ex_intro _ r' (conj Hin Hr'))) as [e ->]. by exists e.
    + split.
      * intros _. exists r. split; [left | done].
      * intros _. unfold MERGE_row. rewrite Hu. by eexists.
Qed.

(** X14. The ingest fails, with [MERGE]'s refusal of a null property value,
    exactly when some line of the file has no [uniqueProperty]; the failure
    does not depend on what the store holds or on the other lines. *)
Theorem ingest_null_key csv now g :
  ingest csv now g = inl NullMergeProperty ↔
  ∃ r, r ∈ csv ∧ uniqueProperty r = None.
Proof.
  rewrite <- (MERGE_fails csv g). unfold ingest. split.
  - intros H. destruct (MERGE csv g) as [e|[rows g']]; [by exists e | done].
  - intros [[] He]. by rewrite He.
Qed.

(** *** A key the store already holds *)

Lemma insert_desc_perm g x l : insert_desc g x l ≡ₚ x :: l.
Proof.
  induction l as [|y l IH]; simpl; [done|].
  case_match; [done|]. rewrite IH. apply Permutation_swap.
Qed.

Lemma ORDER_BY_perm g rows : ORDER_BY_version_DESC g rows ≡ₚ rows.
Proof.
  unfold ORDER_BY_version_DESC. induction rows as [|x rows IH]; simpl; [done|].
  by rewrite insert_desc_perm, IH.
Qed.

Lemma LIMIT_1_of_some g rows :
  rows ≠ [] → ∃ v, v ∈ rows ∧ take 1 (ORDER_BY_version_DESC g rows) = [v].
Proof.
  intros Hne. pose proof (ORDER_BY_perm g rows) as Hp.
  destruct (ORDER_BY_version_DESC g rows) as [|v l].
  - apply Permutation_nil_l in Hp. by subst.
  - exists v. split; [|done]. rewrite <- Hp. left.
Qed.

Lemma filter_seq_unique (P : nat → Prop) `{∀ x, Decision (P x)} a n i :
  a ≤ i < a + n → P i → (∀ j, P j → j = i) → filter P (seq a n) = [i].
Proof.
  revert a. induction n as [|n IH]; intros a Hi HP Huniq; [lia|].
  simpl. rewrite filter_cons. destruct (decide (a = i)) as [->|Hne].
  - rewrite decide_True by done. f_equal.
    apply VersionFacts.filter_none, Forall_forall.
    intros j Hj%elem_of_seq Hjp. apply Huniq in Hjp. lia.
  - rewrite decide_False by (intros Ha; apply Huniq in Ha; lia).
    apply IH; [lia | done | done].
Qed.

Lemma matching_unique u g i x :
  nodes g !! i = Some x → is_YourLabel u x →
  (∀ j y, nodes g !! j = Some y → is_YourLabel u y → j = i) →
  matching u g = [i].
Proof.
  intros Hi Hx Huniq. unfold matching, range0.
  apply filter_seq_unique.
  - apply lookup_lt_Some in Hi. lia.
  - unfold matches. rewrite Hi. by apply bool_decide_eq_true.
  - intros j Hj. unfold matches in Hj.
    destruct (nodes g !! j) as [y|] eqn:Hy; [|done].
    apply bool_decide_eq_true in Hj. by eapply Huniq.
Qed.

Lemma SET_row_remove_label m x :
  SET_row m (remove_label "CurrentVersion" x) = SET_row m x.
Proof.
  unfold SET_row, add_label, remove_label. simpl. f_equal.
  apply set_eq. intros l.
  rewrite !elem_of_union, elem_of_difference, !elem_of_singleton.
  destruct (decide (l = "CurrentVersion")) as [->|Hl].
  - split; intros _; by right.
  - split; [intros [[? _]|?] | intros [?|?]]; by auto.
Qed.

Lemma ingest_existing_key r u now g i x :
  uniqueProperty r = Some u →
  nodes g !! i = Some x → is_YourLabel u x →
  (∀ j y, nodes g !! j = Some y → is_YourLabel u y → j = i) →
  ∃ g', ingest [r] now g = inr g' ∧
        nodes g' = alter (SET_row (Merged i r)) i (nodes g) ∧
        (rels g' = rels g ∨
         ∃ e, e ∈ rels g ∧ start_node e = i ∧
              rel_type e = "PREVIOUS_VERSION" ∧
              has_label "YourLabel_History" g (end_node e) = true ∧
              rels g' = rels g ++ [Rel i (end_node e) "PREVIOUS_VERSION"
                                       {["timestamp" := VInt now]}]).
Proof.
  intros Hu Hi Hx Huniq. unfold ingest, MERGE, MERGE_row.
  rewrite Hu, (matching_unique u g i x Hi Hx Huniq). cbn [fmap list_fmap app].
  set (m := Merged i r).
  set (rows := OPTIONAL_MATCH_old [m] g).
  assert (∀ v, v ∈ rows → base v = m ∧
            (old v = None ∨ ∃ e, e ∈ rels g ∧ start_node e = i ∧
               rel_type e = "PREVIOUS_VERSION" ∧
               has_label "YourLabel_History" g (end_node e) = true ∧
               old v = Some (end_node e))) as Hrows.
  { intros v Hv. unfold rows, OPTIONAL_MATCH_old in Hv.
    cbn [mbind list_bind] in Hv. rewrite app_nil_r in Hv.
    destruct (filter _ (rels g)) as [|e0 found] eqn:E.
    - apply list_elem_of_singleton in Hv as ->. split; [done | by left].
    - apply list_elem_of_fmap in Hv as (e & -> & He). split; [done|]. right.
      rewrite <- E in He. apply list_elem_of_filter in He as [(? & ? & ?) ?].
      by exists e. }
  assert (rows ≠ []) as Hne.
  { unfold rows, OPTIONAL_MATCH_old. cbn [mbind list_bind]. rewrite app_nil_r.
    by destruct (filter _ (rels g)). }
  destruct (LIMIT_1_of_some g rows Hne) as (v & Hv & ->).
  destruct (Hrows v Hv) as [Hbase Hold].
  cbn [fmap list_fmap]. rewrite Hbase.
  unfold FOREACH_relink, SET_rows. cbn [foldl].
  destruct (old v) as [o|] eqn:Eo.
  - destruct Hold as [|(e & He & Hs & Ht & Hl & Ho)]; [done|].
    injection Ho as ->. rewrite Hbase. cbn [n].
    destruct (hasChanged g v).
    + eexists. split; [done|]. cbn [update_node CREATE_rel nodes rels]. split.
      * rewrite list_alter_alter_eq. apply list_alter_ext; [|done].
        intros y _. apply SET_row_remove_label.
      * right. by exists e.
    + eexists. split; [done|]. split; [done | by left].
  - eexists. split; [done|]. split; [done | by left].
Qed.

(** X15. A line whose key exactly one entity already holds is written over
    that entity: no node is created, so no history node either; the entity
    gets the label [CurrentVersion] and the line's [property1] and
    [property2] in place of what it held, every other node stays as it was,
    and at most one relationship is added, a [PREVIOUS_VERSION] to a history
    node the entity already points to. *)
Theorem ingest_overwrites_in_place r u now g i x :
  uniqueProperty r = Some u →
  nodes g !! i = Some x → is_YourLabel u x →
  (∀ j y, nodes g !! j = Some y → is_YourLabel u y → j = i) →
  ∃ g' x', ingest [r] now g = inr g' ∧
    length (nodes g') = length (nodes g) ∧
    nodes g' !! i = Some x' ∧
    "CurrentVersion" ∈ labels x' ∧
    properties x' !! "property1" = csvProperty1 r ∧
    properties x' !! "property2" = csvProperty2 r ∧
    (∀ k, k ≠ "property1" → k ≠ "property2" →
          properties x' !! k = properties x !! k) ∧
    (∀ j, j ≠ i → nodes g' !! j = nodes g !! j) ∧
    (rels g' = rels g ∨
     ∃ e, e ∈ rels g ∧ start_node e = i ∧ rel_type e = "PREVIOUS_VERSION" ∧
          rels g' = rels g ++ [Rel i (end_node e) "PREVIOUS_VERSION"
                                   {["timestamp" := VInt now]}]).
Proof.
  intros Hu Hi Hx Huniq.
  destruct (ingest_existing_key r u now g i x Hu Hi Hx Huniq)
    as (g' & Hg' & Hnodes & Hrels).
  exists g', (SET_row (Merged i r) x). rewrite Hnodes. split_and!.
  - done.
  - apply length_alter.
  - by rewrite list_lookup_alter_eq, Hi.
  - unfold SET_row, add_label. simpl. by apply elem_of_union_r, elem_of_singleton.
  - unfold SET_row, add_label. simpl.
    rewrite !VersionFacts.lookup_set_prop. by simpl.
  - unfold SET_row, add_label. simpl.
    by rewrite !VersionFacts.lookup_set_prop.
  - intros k H1 H2. unfold SET_row, add_label. simpl.
    rewrite !VersionFacts.lookup_set_prop. by rewrite !decide_False by done.
  - intros j Hj. by apply list_lookup_alter_ne.
  - destruct Hrels as [|(e & ? & ? & ? & _ & ?)]; [by left | right; by exists e].
Qed.

Lemma ingest_overwrites_in_place_witness :
  nodes store_k !! 0 = Some (first_version (line_k 1) (VStr "k")) ∧
  ∃ g' x', ingest [line_k 2] 100 store_k = inr g' ∧
           nodes g' !! 0 = Some x' ∧
           properties x' !! "property1" = Some (VInt 2) ∧
           length (nodes g') = 1.
Proof.
  split; [reflexivity|].
  destruct (ingest_overwrites_in_place (line_k 2) (VStr "k") 100 store_k 0
              (first_version (line_k 1) (VStr "k")))
    as (g' & x' & Hg & Hlen & Hx' & _ & Hp1 & _); [done | done | | |].
  - split; [by_set_membership | by vm_compute].
  - intros j y Hj _. destruct j as [|j]; [done|]. by destruct j.
  - exists g', x'. by split_and!.
Defined.

(** *** Ingesting twice, ingesting two new keys *)

Lemma SET_row_first_version i r u :
  SET_row (Merged i r) (first_version r u) = first_version r u.
Proof.
  unfold SET_row, first_version, add_label. simpl. f_equal.
  apply map_eq. intros k. rewrite !VersionFacts.lookup_set_prop.
  repeat case_decide; by subst.
Qed.

(** X16. Ingesting the same line again changes nothing more: after a line
    with a new key has been ingested into a well-formed store, a second
    ingest of that line, at any later time, returns the store as it is. *)
Theorem ingest_again_is_noop r u now now' g g1 :
  wf g → uniqueProperty r = Some u →
  (∀ i x, nodes g !! i = Some x → ¬ is_YourLabel u x) →
  ingest [r] now g = inr g1 →
  ingest [r] now' g1 = inr g1.
Proof.
  intros Hwf Hu Hnew Hg1.
  rewrite (ingest_new_key r u now g Hwf Hu Hnew) in Hg1. injection Hg1 as <-.
  set (g1 := {| nodes := nodes g ++ [first_version r u]; rels := rels g |}).
  destruct (ingest_existing_key r u now' g1 (length (nodes g)) (first_version r u))
    as (g' & -> & Hnodes & Hrels); [done | | | |].
  - simpl. by rewrite lookup_app_r, Nat.sub_diag by lia.
  - split; [by apply elem_of_union_l, elem_of_singleton|].
    unfold first_version. simpl. rewrite !VersionFacts.lookup_set_prop.
    by rewrite lookup_singleton_eq.
  - intros j y Hj Hy. simpl in Hj.
    destruct (decide (j < length (nodes g))) as [Hlt|Hge].
    + rewrite lookup_app_l in Hj by done. by destruct (Hnew j y Hj).
    + apply lookup_lt_Some in Hj. rewrite length_app in Hj. simpl in Hj. lia.
  - f_equal. destruct g' as [ns rs]. simpl in *. f_equal.
    + rewrite Hnodes, alter_app_r_alt by lia. rewrite Nat.sub_diag.
      simpl. by rewrite SET_row_first_version.
    + destruct Hrels as [|(e & He & Hs & _)]; [done|].
      eapply Forall_forall in Hwf; [|done]. lia.
Qed.

Lemma ingest_again_is_noop_witness :
  ingest [line_k 1] 100 Graph.empty = inr store_k ∧
  ingest [line_k 1] 200 store_k = inr store_k.
Proof.
  assert (ingest [line_k 1] 100 Graph.empty = inr store_k) as H by (by vm_compute).
  split; [done|].
  apply (ingest_again_is_noop (line_k 1) (VStr "k") 100 200 Graph.empty);
    [constructor | done | by intros [|?] x Hx | done].
Defined.

(** X17. [LIMIT 1] cuts the table of the whole file to one row: a file
    that brings two new keys into a well-formed store creates a node for each
    but labels only one of them [CurrentVersion]; the store's other nodes
    and its relationships are as before. *)
Theorem ingest_two_new_keys r1 r2 u1 u2 now g :
  wf g →
  uniqueProperty r1 = Some u1 → uniqueProperty r2 = Some u2 → u1 ≠ u2 →
  (∀ i x, nodes g !! i = Some x → ¬ is_YourLabel u1 x) →
  (∀ i x, nodes g !! i = Some x → ¬ is_YourLabel u2 x) →
  ∃ g' x y,
    ingest [r1; r2] now g = inr g' ∧
    nodes g' = nodes g ++ [x; y] ∧ rels g' = rels g ∧
    (("CurrentVersion" ∈ labels x ∧ ("CurrentVersion" ∉ labels y)) ∨
     (("CurrentVersion" ∉ labels x) ∧ "CurrentVersion" ∈ labels y)).
Proof.
  intros Hwf Hu1 Hu2 Hne Hnew1 Hnew2.
  set (created u := {| labels := {["YourLabel"]};
                       properties := {["uniqueProperty" := u]} |}).
  set (g1 := {| nodes := nodes g ++ [created u1]; rels := rels g |}).
  assert (matching u2 g1 = []) as Hm2.
  { apply matching_none. intros i x Hi Hyl. simpl in Hi.
    destruct (decide (i < length (nodes g))) as [Hlt|Hge].
    - rewrite lookup_app_l in Hi by done. exact (Hnew2 i x Hi Hyl).
    - destruct Hyl as [_ Hx]. rewrite lookup_app_r in Hi by lia.
      apply list_lookup_singleton_Some in Hi as [_ <-]. simpl in Hx.
      rewrite lookup_singleton_eq in Hx. congruence. }
  assert (∀ i, length (nodes g) ≤ i →
            filter (λ e, start_node e = i ∧ rel_type e = "PREVIOUS_VERSION" ∧
                         has_label "YourLabel_History"
                           {| nodes := (nodes g ++ [created u1]) ++ [created u2];
                              rels := rels g |} (end_node e) = true)
                   (rels g) = []) as Hnone.
  { intros i Hi. apply VersionFacts.filter_none.
    eapply Forall_impl; [apply Hwf|]. simpl. intros e [? _] [? _]. lia. }
  exists {| nodes := nodes g ++ [first_version r1 u1; created u2]; rels := rels g |},
         (first_version r1 u1), (created u2).
  split_and!; [|done|done|].
  - unfold ingest, MERGE, MERGE_row.
    rewrite Hu1, (matching_none u1 g Hnew1). cbn [CREATE_node fst snd].
    fold (created u1). fold g1. rewrite Hu2, Hm2. cbn [CREATE_node fst snd app g1 nodes rels].
    fold (created u2).
    unfold OPTIONAL_MATCH_old. cbn [mbind list_bind n rels].
    rewrite !Hnone by (rewrite ?length_app; simpl; lia).
    cbn. unfold SET_rows, update_node. cbn. do 2 f_equal.
    rewrite <- app_assoc. rewrite alter_app_r_alt by lia. rewrite Nat.sub_diag.
    done.
  - left. split.
    + by apply elem_of_union_r, elem_of_singleton.
    + simpl. by intros ?%elem_of_singleton.
Qed.

Lemma ingest_two_new_keys_witness :
  ∃ g' x y,
    ingest [line_k 1; CsvRow (Some (VStr "l")) (Some (VInt 2)) None] 100 Graph.empty
      = inr g' ∧
    nodes g' = [x; y] ∧
    (("CurrentVersion" ∈ labels x ∧ ("CurrentVersion" ∉ labels y)) ∨
     (("CurrentVersion" ∉ labels x) ∧ "CurrentVersion" ∈ labels y)).
Proof.
  destruct (ingest_two_new_keys (line_k 1) (CsvRow (Some (VStr "l")) (Some (VInt 2)) None)
              (VStr "k") (VStr "l") 100 Graph.empty)
    as (g' & x & y & Hg & Hn & _ & Hl);
    [constructor | done | done | done | by intros [|?] | by intros [|?] |].
  by exists g', x, y.
Defined.

End IngestFacts.

(** ** Daily comparison: file names *)

Module CompareFacts.
Import DailyCompare.

Example sample_names :
  YESTERDAY_FILE (chars "20240102") (chars "20240101") sample_today
    = DIRECTORY ++ chars "/sales_20240101.csv" ∧
  DIFF_OUTPUT sample_today = DIRECTORY ++ chars "/sales_20240102_diff.csv" ∧
  glob (chars "20240102") (chars ".csv") sample_today = true ∧
  glob (chars "20240102") (chars ".csv") (DIFF_OUTPUT sample_today) = true.
Proof. by vm_compute. Qed.

Lemma prefix_app_le (p s t : list ascii) :
  length p ≤ length s → p `prefix_of` (s ++ t) → p `prefix_of` s.
Proof.
  intros Hlen [k Hk].
  exists (drop (length p) s).
  assert (Hp : p = take (length p) s).
  { apply (f_equal (take (length p))) in Hk.
    rewrite take_app_le in Hk by done.
    by rewrite take_app_length in Hk. }
  rewrite Hp at 1. by rewrite take_drop.
Qed.

Lemma occurs_length pat s : occurs pat s = true → length pat ≤ length s.
Proof.
  induction s as [|c s IH]; cbn [occurs]; intros H.
  - apply orb_true_iff in H as [H|H]; [|done].
    apply bool_decide_eq_true in H. by apply prefix_length.
  - apply orb_true_iff in H as [H|H].
    + apply bool_decide_eq_true in H. by apply prefix_length.
    + specialize (IH H). cbn. lia.
Qed.

Lemma occurs_app_l pat s t : occurs pat s = true → occurs pat (s ++ t) = true.
Proof.
  induction s as [|c s IH]; intros H.
  - cbn [occurs] in H. apply orb_true_iff in H as [H|H]; [|done].
    apply bool_decide_eq_true in H. apply prefix_nil_inv in H. subst pat.
    destruct t; cbn; apply orb_true_iff; left;
      apply bool_decide_eq_true; apply prefix_nil.
  - cbn [occurs app] in *. apply orb_true_iff in H as [H|H]; apply orb_true_iff.
    + left. apply bool_decide_eq_true in H. apply bool_decide_eq_true.
      change (pat `prefix_of` (c :: s) ++ t). by apply prefix_app_r.
    + right. by apply IH.
Qed.

Lemma occurs_app_r pat s t : occurs pat t = true → occurs pat (s ++ t) = true.
Proof.
  intros H. induction s as [|c s IH]; [done|].
  cbn [occurs app]. apply orb_true_iff. by right.
Qed.

Lemma replace_first_app pat rep s t :
  occurs pat s = true →
  replace_first pat rep (s ++ t) = replace_first pat rep s ++ t.
Proof.
  induction s as [|c s IH]; intros H.
  - cbn [occurs] in H. apply orb_true_iff in H as [H|H]; [|done].
    apply bool_decide_eq_true in H. apply prefix_nil_inv in H. subst pat.
    destruct t; cbn; by rewrite ?app_nil_r.
  - pose proof (occurs_length _ _ H) as Hlen.
    cbn [replace_first app].
    destruct (decide (pat `prefix_of` c :: s)) as [Hp|Hp].
    + rewrite (bool_decide_eq_true_2 _ Hp).
      rewrite bool_decide_eq_true_2
        by (change (pat `prefix_of` (c :: s) ++ t); by apply prefix_app_r).
      change (c :: s ++ t) with ((c :: s) ++ t).
      rewrite drop_app_le by done. by rewrite app_assoc.
    + rewrite (bool_decide_eq_false_2 _ Hp).
      rewrite bool_decide_eq_false_2.
      2:{ intros Hq. apply Hp.
          by apply (prefix_app_le pat (c :: s) t). }
      cbn [occurs] in H. rewrite (bool_decide_eq_false_2 _ Hp) in H.
      cbn in H. by rewrite IH.
Qed.

(** A character that is no digit cannot start an occurrence of a date. *)
Lemma replace_first_skip T Y c s :
  T ≠ [] → Forall (λ d, is_digit d = true) T → is_digit c = false →
  replace_first T Y (c :: s) = c :: replace_first T Y s.
Proof.
  intros HT Hd Hc. cbn [replace_first].
  rewrite bool_decide_eq_false_2; [done|].
  intros [k Hk]. destruct T as [|d T]; [done|].
  inversion Hk; subst d. apply Forall_cons in Hd as [Hd _]. congruence.
Qed.

Lemma replace_first_skips T Y p s :
  T ≠ [] → Forall (λ d, is_digit d = true) T →
  Forall (λ c, is_digit c = false) p →
  replace_first T Y (p ++ s) = p ++ replace_first T Y s.
Proof.
  intros HT Hd. induction 1 as [|c p Hc _ IH]; [done|].
  cbn [app]. rewrite replace_first_skip by done. by rewrite IH.
Qed.

Lemma directory_no_digit :
  Forall (λ c, is_digit c = false) (DIRECTORY ++ [slash]).
Proof. apply (bool_decide_unpack _). by vm_compute. Qed.

Lemma replace_first_directory T Y s :
  T ≠ [] → Forall (λ d, is_digit d = true) T →
  replace_first T Y ((DIRECTORY ++ [slash]) ++ s)
    = (DIRECTORY ++ [slash]) ++ replace_first T Y s.
Proof.
  intros. apply replace_first_skips; [done..|apply directory_no_digit].
Qed.

Lemma strip_suffix_app suf s : strip_suffix suf (s ++ suf) = s.
Proof.
  unfold strip_suffix.
  rewrite bool_decide_eq_true_2 by apply suffix_app_r, reflexivity.
  rewrite length_app, Nat.add_sub. by rewrite take_app_length.
Qed.

(** What a path matched by a loop pattern looks like. *)
Lemma glob_inv T ext path :
  glob T ext path = true →
  ∃ stem, path = (DIRECTORY ++ [slash]) ++ stem ++ ext ∧
          (slash ∉ stem ++ ext) ∧ head (stem ++ ext) ≠ Some dot ∧
          occurs T stem = true.
Proof.
  unfold glob. intros H.
  repeat (apply andb_true_iff in H as [H ?]).
  apply bool_decide_eq_true in H as [name Hname].
  assert (Hdrop : drop (length DIRECTORY + 1) path = name).
  { rewrite Hname.
    replace (length DIRECTORY + 1) with (length (DIRECTORY ++ [slash]))
      by (rewrite length_app; done).
    by rewrite drop_app_length. }
  rewrite Hdrop in *.
  match goal with Hs : bool_decide (ext `suffix_of` name) = true |- _ =>
    apply bool_decide_eq_true in Hs as [stem Hstem] end.
  subst name.
  match goal with Ho : occurs T (take _ _) = true |- _ =>
    rewrite length_app, Nat.add_sub, take_app_length in Ho end.
  exists stem. split; [done|]. split; [|split; [|done]].
  - match goal with Hn : negb (bool_decide (slash ∈ _)) = true |- _ =>
      apply negb_true_iff, bool_decide_eq_false in Hn; exact Hn end.
  - match goal with Hn : negb (bool_decide (head _ = _)) = true |- _ =>
      apply negb_true_iff, bool_decide_eq_false in Hn; exact Hn end.
Qed.

Lemma glob_intro T ext stem :
  slash ∉ stem ++ ext → head (stem ++ ext) ≠ Some dot → occurs T stem = true →
  glob T ext ((DIRECTORY ++ [slash]) ++ stem ++ ext) = true.
Proof.
  intros Hs Hh Ho. unfold glob.
  replace (length DIRECTORY + 1) with (length (DIRECTORY ++ [slash]))
    by (rewrite length_app; done).
  rewrite drop_app_length.
  rewrite length_app, Nat.add_sub, take_app_length.
  rewrite bool_decide_eq_true_2 by (by apply prefix_app_r).
  rewrite (bool_decide_eq_false_2 _ Hs), (bool_decide_eq_false_2 _ Hh).
  rewrite bool_decide_eq_true_2 by (by apply suffix_app_r).
  by rewrite Ho.
Qed.

(** The head of an output name is the head of the input name. *)
Lemma head_stem T (stem e1 e2 : list ascii) c :
  occurs T stem = true → head e2 = Some c → c ≠ dot →
  head (stem ++ e1) ≠ Some dot → head (stem ++ e2) ≠ Some dot.
Proof.
  intros _ He Hc H. destruct stem as [|d stem]; [|done].
  cbn. rewrite He. congruence.
Qed.

Lemma output_matches T stem ext :
  slash ∉ stem ++ ext → head (stem ++ ext) ≠ Some dot → occurs T stem = true →
  glob T (chars ".csv")
    ((DIRECTORY ++ [slash]) ++ stem ++ chars "_diff.csv") = true.
Proof.
  intros Hs Hh Ho.
  change (chars "_diff.csv") with (chars "_diff" ++ chars ".csv").
  rewrite (app_assoc stem). apply glob_intro.
  - assert (H1 : slash ∉ chars "_diff")
      by (apply (bool_decide_unpack _); by vm_compute).
    assert (H2 : slash ∉ chars ".csv")
      by (apply (bool_decide_unpack _); by vm_compute).
    rewrite <- app_assoc. rewrite !elem_of_app. rewrite elem_of_app in Hs.
    tauto.
  - rewrite <- app_assoc.
    by apply (head_stem T stem ext _ "_"%char).
  - by apply occurs_app_l.
Qed.

(** X19. A file the plain-CSV loop visits gives an output that the same loop
    pattern matches: the output lies in the directory, ends with [.csv] and
    holds today's date, so a later run the same day visits it as one of
    today's files. *)
Theorem diff_output_matches_again T f :
  glob T (chars ".csv") f = true →
  glob T (chars ".csv") (DIFF_OUTPUT f) = true.
Proof.
  intros H. apply glob_inv in H as (stem & -> & Hs & Hh & Ho).
  unfold DIFF_OUTPUT. rewrite (app_assoc _ stem), strip_suffix_app.
  rewrite <- app_assoc. by apply (output_matches T stem (chars ".csv")).
Qed.

Lemma diff_output_matches_again_witness :
  glob (chars "20240102") (chars ".csv") sample_today = true ∧
  glob (chars "20240102") (chars ".csv") (DIFF_OUTPUT sample_today) = true.
Proof.
  split; [by vm_compute|].
  apply (diff_output_matches_again (chars "20240102") sample_today).
  by vm_compute.
Defined.

(** X20. A file the gzip loop visits gives an output that the plain-CSV loop
    of the other script matches, and that the gzip loop itself does not. *)
Theorem gz_output_is_plain_csv T f :
  glob T (chars ".csv.gz") f = true →
  glob T (chars ".csv") (DIFF_OUTPUT_GZ f) = true ∧
  glob T (chars ".csv.gz") (DIFF_OUTPUT_GZ f) = false.
Proof.
  intros H. apply glob_inv in H as (stem & -> & Hs & Hh & Ho).
  unfold DIFF_OUTPUT_GZ. rewrite (app_assoc _ stem), strip_suffix_app.
  rewrite <- app_assoc. split.
  - by apply (output_matches T stem (chars ".csv.gz")).
  - unfold glob.
    replace (length DIRECTORY + 1) with (length (DIRECTORY ++ [slash]))
      by (rewrite length_app; done).
    rewrite drop_app_length.
    rewrite (bool_decide_eq_false_2 (chars ".csv.gz" `suffix_of` _)).
    { by rewrite andb_false_r. }
    intros [k Hk].
    apply (f_equal (@reverse ascii)) in Hk.
    rewrite !reverse_app in Hk. by vm_compute in Hk.
Qed.

Lemma gz_output_is_plain_csv_witness :
  glob (chars "20240102") (chars ".csv.gz") (sample_today ++ chars ".gz") = true ∧
  glob (chars "20240102") (chars ".csv")
    (DIFF_OUTPUT_GZ (sample_today ++ chars ".gz")) = true ∧
  glob (chars "20240102") (chars ".csv.gz")
    (DIFF_OUTPUT_GZ (sample_today ++ chars ".gz")) = false.
Proof.
  split; [by vm_compute|].
  apply (gz_output_is_plain_csv (chars "20240102") (sample_today ++ chars ".gz")).
  by vm_compute.
Defined.

(** X21. For a date of digits, yesterday's counterpart of an output is the
    output of yesterday's counterpart: the date is replaced inside the file
    name, never in the directory part, and the two name rewrites commute.
    So a run that visits one of its own earlier outputs compares it with
    the output that the run of the day before wrote for the counterpart. *)
Theorem yesterday_of_output T Y f :
  T ≠ [] → Forall (λ d, is_digit d = true) T →
  glob T (chars ".csv") f = true →
  YESTERDAY_FILE T Y (DIFF_OUTPUT f) = DIFF_OUTPUT (YESTERDAY_FILE T Y f).
Proof.
  intros HT Hd H. apply glob_inv in H as (stem & -> & Hs & Hh & Ho).
  unfold DIFF_OUTPUT at 1. rewrite (app_assoc _ stem), strip_suffix_app.
  unfold YESTERDAY_FILE.
  rewrite <- (app_assoc _ stem (chars "_diff.csv")).
  rewrite <- (app_assoc _ stem (chars ".csv")).
  rewrite !replace_first_directory by done.
  rewrite !replace_first_app by done.
  unfold DIFF_OUTPUT.
  rewrite (app_assoc _ (replace_first T Y stem) (chars ".csv")).
  rewrite strip_suffix_app. by rewrite <- !app_assoc.
Qed.

Lemma yesterday_of_output_witness :
  YESTERDAY_FILE (chars "20240102") (chars "20240101") (DIFF_OUTPUT sample_today)
    = DIFF_OUTPUT (YESTERDAY_FILE (chars "20240102") (chars "20240101") sample_today).
Proof.
  apply (yesterday_of_output (chars "20240102") (chars "20240101") sample_today).
  - done.
  - apply (bool_decide_unpack _). by vm_compute.
  - by vm_compute.
Defined.

End CompareFacts.
